(** * reqtest: an HTTP size probe, listener and sender

    A shallow embedding of [reqtest/main.go] and of the earlier revision of
    the same program (the second [main.go], without step flags), with the
    properties of the two subcommands [listen] and [send].

    Conventions.
    - Go's [int] is a two's complement integer of [intSize] bits, kept as a [Z]
      with the wrap-around written out; results are stated for [intSize = 64],
      the size of [int] on amd64 and arm64.
    - A pointer returned by the [flag] package is an [option]: [None] is [nil].
    - An [error] value is [option error]: [None] is [nil].
    - Everything the program does to the outside (standard output, the log,
      the clock, the network, the random source) is recorded as an [Event] in
      the [World]; what the outside answers comes from an [Env]. *)

From Stdlib Require Import ZArith List String Ascii Bool Lia.
From Stdlib Require Import Strings.Byte.
Import ListNotations.

Local Open Scope string_scope.
Local Open Scope list_scope.
Local Open Scope Z_scope.

(** ** Values, errors, requests *)

(** Operands of [fmt] verbs and Go [error] values.  [fmt_Errorf] keeps the
    format string and its operands, so a [%w] operand is the wrapped error. *)
Inductive Val : Type :=
| VInt (n : Z)
| VString (s : string)
| VDuration (d : Z)
| VError (e : error)
with error : Type :=
| errors_New (text : string)
| fmt_Errorf (format : string) (args : list Val)
| foreign_error (text : string).

(** An [io.Reader] as far as [io.ReadAll] sees it: the bytes it delivers
    before it ends, and the error it ends with ([None] for [io.EOF]). *)
Record Reader : Type := mkReader {
  content : list byte;
  failure : option error
}.

Record Request : Type := mkRequest {
  Method : string;
  URL : string;
  Body : Reader
}.

Record Response : Type := mkResponse {
  StatusCode : Z
}.

Definition StatusOK : Z := 200.
Definition StatusInternalServerError : Z := 500.

(** Durations are [int64] nanoseconds. *)
Definition Second : Z := 1000000000.

(** ** The command line flags *)

Record Flags : Type := mkFlags {
  respDelay : option Z;
  sendStartStep : option Z;
  sendEndStep : option Z
}.

(** [flag.Duration] and [flag.Int] return a pointer to the parsed value;
    without the flag on the command line it is the default. *)
Definition parsedFlags (delay startStep endStep : Z) : Flags :=
  mkFlags (Some delay) (Some startStep) (Some endStep).

Definition defaultFlags : Flags := parsedFlags (0 * Second) 1 25.

(** ** Events and the world *)

Inductive Event : Type :=
| Println (text : string)
| LogPrintln (text : string)
| LogPrintf (format : string) (args : list Val)
| Sleep (d : Z)
| ReadAll (n : nat) (err : option error)
| WriteHeader (code : Z)
| WriteBody (b : list byte)
| HandleFunc (pattern : string)
| ListenAndServe (addr : string)
| RandRead (n : nat)
| ClientDo (req : Request).

Record World : Type := mkWorld {
  trace : list Event;
  randCalls : nat;
  doCalls : nat
}.

Definition initWorld : World := mkWorld [] 0 0.

(** What the outside answers.  [rand.Read] either fails or fills the whole
    slice; [randByte k i] is byte [i] of the [k]-th call.  [urlError] is the
    failure of [url.Parse] inside [http.NewRequest].  [roundTrip k req] is
    the outcome of the [k]-th [client.Do].  A server receives [incoming] and
    [http.ListenAndServe] then returns [serveError]. *)
Record Env : Type := mkEnv {
  randError : nat -> option error;
  randByte : nat -> nat -> byte;
  urlError : string -> option error;
  roundTrip : nat -> Request -> error + Response;
  incoming : list Request;
  serveError : error
}.

(** ** A monad for Go function bodies

    A computation either goes on with a value or leaves the function: by a
    [return] of an [error] (or [nil]), by a panic, or because the bounded
    unrolling of a [for] statement ran out. *)
Inductive Exit : Type :=
| Returned (err : option error)
| Panic (reason : string)
| OutOfFuel.

Definition Go (A : Type) : Type := World -> (A + Exit) * World.

Definition ret {A} (a : A) : Go A := fun w => (inl a, w).

Definition bind {A B} (c : Go A) (k : A -> Go B) : Go B :=
  fun w =>
    match c w with
    | (inl a, w') => k a w'
    | (inr x, w') => (inr x, w')
    end.

Definition leave {A} (x : Exit) : Go A := fun w => (inr x, w).

Definition return_ {A} (err : option error) : Go A := leave (Returned err).

Definition emit (ev : Event) : Go unit :=
  fun w => (inl tt, mkWorld (trace w ++ [ev]) (randCalls w) (doCalls w)).

Declare Scope go_scope.
Delimit Scope go_scope with go.
Notation "x <- c ;; k" := (bind c (fun x => k))
  (at level 61, c at next level, right associativity) : go_scope.
Notation "' pat <- c ;; k" := (bind c (fun x => match x with pat => k end))
  (at level 61, pat pattern, c at next level, right associativity) : go_scope.
Notation "c ;; k" := (bind c (fun _ => k))
  (at level 61, right associativity) : go_scope.
Local Open Scope go_scope.

(** ** Library calls *)

Definition usageText : string :=
"This is a tool that will listen for any requests and echo them to stdout.
It can also send requests of increasing sizes to a listener.

To listen:
[binary] listen <address>

To send:
[binary] send <address>".

Definition printUsage : Go unit := emit (Println usageText).

Definition log_Printf (format : string) (args : list Val) : Go unit :=
  emit (LogPrintf format args).

Definition log_Println (text : string) : Go unit := emit (LogPrintln text).

Definition time_Sleep (d : Z) : Go unit := emit (Sleep d).

(** [io.ReadAll]: the bytes read and the error, [nil] at end of input. *)
Definition io_ReadAll (r : Reader) : Go (list byte * option error) :=
  emit (ReadAll (List.length (content r)) (failure r)) ;;
  ret (content r, failure r).

Definition bytes_NewReader (b : list byte) : Reader := mkReader b None.

(** [make([]byte, n)] panics on a negative length. *)
Definition make_bytes (n : Z) : Go nat :=
  if n <? 0 then leave (Panic "makeslice: len out of range")
  else ret (Z.to_nat n).

(** [rand.Read(b)] on a slice of length [n]: the filled slice and the error. *)
Definition rand_Read (env : Env) (n : nat) : Go (list byte * option error) :=
  fun w =>
    let k := randCalls w in
    let w' := mkWorld (trace w ++ [RandRead n]) (S k) (doCalls w) in
    match randError env k with
    | Some e => (inl (repeat x00 n, Some e), w')
    | None => (inl (map (randByte env k) (seq 0 n), None), w')
    end.

(** [http.NewRequest]: the method is a constant valid token in every call of
    this program, so the only failure is the URL's. *)
Definition http_NewRequest (env : Env) (method url : string) (body : Reader)
  : option Request * option error :=
  match urlError env url with
  | Some e => (None, Some e)
  | None => (Some (mkRequest method url body), None)
  end.

(** [client.Do(req)]: the response, or a transport error. *)
Definition client_Do (env : Env) (req : Request) : Go (option Response * option error) :=
  fun w =>
    let k := doCalls w in
    let w' := mkWorld (trace w ++ [ClientDo req]) (randCalls w) (S k) in
    match roundTrip env k req with
    | inl e => (inl (None, Some e), w')
    | inr resp => (inl (Some resp, None), w')
    end.

(** ** encoding/hex *)

Definition hextable : string := "0123456789abcdef".

Definition hexdigit (n : N) : ascii :=
  match String.get (N.to_nat n) hextable with
  | Some c => c
  | None => zero
  end.

(** [hex.EncodeToString]: two characters per byte, high nibble first. *)
Fixpoint EncodeToString (src : list byte) : string :=
  match src with
  | [] => EmptyString
  | v :: rest =>
      String (hexdigit (N.shiftr (Byte.to_N v) 4))
        (String (hexdigit (N.land (Byte.to_N v) 15)) (EncodeToString rest))
  end.

Definition is_hex_char (c : ascii) : bool :=
  existsb (Ascii.eqb c) (list_ascii_of_string hextable).

(** ** net/http server *)

(** One request served: the handler runs to its end, whichever way it leaves,
    and the server goes on. *)
Definition serve (h : Request -> Go unit) (r : Request) : Go unit :=
  fun w => (inl tt, snd (h r w)).

Fixpoint serveAll (h : Request -> Go unit) (rs : list Request) : Go unit :=
  match rs with
  | [] => ret tt
  | r :: rest => serve h r ;; serveAll h rest
  end.

(** [http.ListenAndServe] serves what comes in and returns a non-nil error. *)
Definition http_ListenAndServe (env : Env) (h : Request -> Go unit) (addr : string)
  : Go (option error) :=
  emit (ListenAndServe addr) ;;
  serveAll h (incoming env) ;;
  ret (Some (serveError env)).

(** The status line the client gets: the first [WriteHeader] of the handler,
    [200] when the handler wrote none. *)
Fixpoint responseStatus (t : list Event) : Z :=
  match t with
  | [] => StatusOK
  | WriteHeader code :: _ => code
  | _ :: rest => responseStatus rest
  end.

(** ** The program, [reqtest/main.go] *)

Section Program.

Variable intSize : Z.

(** Two's complement wrap-around of [int], and the conversion [uint(x)]. *)
Definition wrap (z : Z) : Z :=
  (z + 2 ^ (intSize - 1)) mod 2 ^ intSize - 2 ^ (intSize - 1).

Definition to_uint (z : Z) : Z := z mod 2 ^ intSize.

(** [x << s] on [int], the count [s] unsigned. *)
Definition shl (x s : Z) : Z := wrap (Z.shiftl x s).

(** The handler registered by [listen] (an anonymous function there). *)
Definition handler (flags : Flags) (r : Request) : Go unit :=
  (* ignore gets *)
  if (Method r =? "GET")%string then return_ None else
  log_Println "received request" ;;
  match respDelay flags with
  | Some d =>
      if d >? 0 * Second then
        log_Printf "waiting %s before reading/responding..." [VDuration d] ;;
        time_Sleep d
      else ret tt
  | None => ret tt
  end ;;
  ' (bodyBytes, err) <- io_ReadAll (Body r) ;;
  match err with
  | Some e =>
      log_Printf "error reading body: %v\n" [VError e] ;;
      emit (WriteHeader StatusInternalServerError) ;;
      return_ None
  | None =>
      log_Printf "read %v bytes from body\n" [VInt (Z.of_nat (List.length bodyBytes))] ;;
      return_ None
  end.

Definition listen (env : Env) (flags : Flags) (args : list string) : Go unit :=
  if negb (List.length args =? 1)%nat then
    printUsage ;;
    return_ (Some (errors_New "listen expects exactly 1 argument"))
  else
    emit (HandleFunc "/") ;;
    log_Printf "listening on %v\n" [VString (nth 0 args "")] ;;
    err <- http_ListenAndServe env (handler flags) (nth 0 args "") ;;
    return_ err.

(** The body of the [for] statement of [send], up to the shift. *)
Definition iteration (env : Env) (addr : string) (bytesToSend : Z) : Go unit :=
  log_Printf "sending %v bytes\n" [VInt bytesToSend] ;;
  n <- make_bytes (Z.quot bytesToSend 2) ;;
  ' (b, err) <- rand_Read env n ;;
  match err with
  | Some e => return_ (Some (fmt_Errorf "failed to generate bytes: %w" [VError e]))
  | None => ret tt
  end ;;
  let bodyStr := EncodeToString b in
  match http_NewRequest env "PUT" addr (bytes_NewReader (list_byte_of_string bodyStr)) with
  | (_, Some e) => return_ (Some (fmt_Errorf "could make request: %w" [VError e]))
  | (None, None) => leave (Panic "nil request")
  | (Some req, None) =>
      ' (resp, err) <- client_Do env req ;;
      match resp, err with
      | _, Some e => return_ (Some (fmt_Errorf "could not execute request: %w" [VError e]))
      | None, None => leave (Panic "nil response")
      | Some resp, None =>
          if negb (StatusCode resp =? StatusOK) then
            return_ (Some (fmt_Errorf "did not get 200 response, got %v" [VInt (StatusCode resp)]))
          else ret tt
      end
  end.

(** [for bytesToSend <= maxBytes { ...; bytesToSend <<= 1 }], unrolled at
    most [fuel] times. *)
Fixpoint send_loop (fuel : nat) (env : Env) (addr : string) (maxBytes bytesToSend : Z)
  : Go unit :=
  match fuel with
  | O => leave OutOfFuel
  | S fuel' =>
      if bytesToSend <=? maxBytes then
        iteration env addr bytesToSend ;;
        send_loop fuel' env addr maxBytes (shl bytesToSend 1)
      else ret tt
  end.

(** The doubling shifts every bit out of an [int] within [intSize] rounds;
    that this many unrollings are never used up is proved with the loop. *)
Definition loopFuel : nat := S (Z.to_nat intSize).

Definition send (env : Env) (flags : Flags) (args : list string) : Go unit :=
  if negb (List.length args =? 1)%nat then
    printUsage ;;
    return_ (Some (errors_New "send expects exactly 1 argument"))
  else
    (* client := &http.Client{Timeout: 0}: no deadline; what the client
       answers is [roundTrip] *)
    let start := 1 in
    let end_ := 25 in
    start <- match sendStartStep flags with
             | Some v =>
                 if v >? 0 then
                   if v >=? 32 then
                     return_ (Some (fmt_Errorf "start-step cannot be greater than 31" []))
                   else ret (to_uint v)
                 else ret start
             | None => ret start
             end ;;
    end_ <- match sendEndStep flags with
            | Some v =>
                if v >? 0 then
                  if v >=? 32 then
                    return_ (Some (fmt_Errorf "end-step cannot be greater than 31" []))
                  else ret (to_uint v)
                else ret end_
            | None => ret end_
            end ;;
    if end_ <? start then
      return_ (Some (fmt_Errorf "end-step cannot be less than start-step" []))
    else
      let maxBytes := shl 1 end_ in
      let bytesToSend := shl 1 start in
      send_loop loopFuel env (nth 0 args "") maxBytes bytesToSend ;;
      return_ None.

End Program.

(** ** The earlier revision: no step flags, no method check *)

Module Rev0.

Definition handler (flags : Flags) (r : Request) : Go unit :=
  log_Println "received request" ;;
  match respDelay flags with
  | Some d =>
      if d >? 0 * Second then
        log_Printf "waiting %s before reading/responding..." [VDuration d] ;;
        time_Sleep d
      else ret tt
  | None => ret tt
  end ;;
  ' (bodyBytes, err) <- io_ReadAll (Body r) ;;
  match err with
  | Some e =>
      log_Printf "error reading body: %v\n" [VError e] ;;
      emit (WriteHeader StatusInternalServerError) ;;
      return_ None
  | None =>
      log_Printf "read %v bytes from body\n" [VInt (Z.of_nat (List.length bodyBytes))] ;;
      return_ None
  end.

Definition listen (env : Env) (flags : Flags) (args : list string) : Go unit :=
  if negb (List.length args =? 1)%nat then
    printUsage ;;
    return_ (Some (errors_New "listen expects exactly 1 argument"))
  else
    emit (HandleFunc "/") ;;
    log_Printf "listening on %v\n" [VString (nth 0 args "")] ;;
    err <- http_ListenAndServe env (handler flags) (nth 0 args "") ;;
    return_ err.

Definition send (intSize : Z) (env : Env) (args : list string) : Go unit :=
  if negb (List.length args =? 1)%nat then
    printUsage ;;
    return_ (Some (errors_New "send expects exactly 1 argument"))
  else
    (* client := &http.Client{Timeout: 30 * time.Second}: a deadline passed
       is a transport error of [roundTrip] *)
    let maxBytes := shl intSize 1 25 in (* max out at 32M *)
    let bytesToSend := shl intSize 1 2 in
    send_loop intSize (loopFuel intSize) env (nth 0 args "") maxBytes bytesToSend ;;
    return_ None.

End Rev0.

(** [int] on the 64-bit targets. *)
Definition int64Size : Z := 64.

(** ** What one round of the loop does, read off the environment *)

(** The bytes the [k]-th [rand.Read] puts in a slice of length [n]. *)
Definition payload (env : Env) (k n : nat) : list byte :=
  map (randByte env k) (seq 0 n).

Definition putRequest (addr : string) (b : list byte) : Request :=
  mkRequest "PUT" addr (bytes_NewReader (list_byte_of_string (EncodeToString b))).

(** The request of the round that is [k]-th to draw random bytes, for the
    target size [size]. *)
Definition stepRequest (env : Env) (addr : string) (k : nat) (size : Z) : Request :=
  putRequest addr (payload env k (Z.to_nat (Z.quot size 2))).

Inductive StepResult : Type :=
| StepOk
| RandFailed (e : error)
| RequestNotBuilt (e : error)
| TransportError (e : error)
| BadStatus (code : Z).

Definition stepResult (env : Env) (addr : string) (k : nat) (size : Z) : StepResult :=
  match randError env k with
  | Some e => RandFailed e
  | None =>
      match urlError env addr with
      | Some e => RequestNotBuilt e
      | None =>
          match roundTrip env k (stepRequest env addr k size) with
          | inl e => TransportError e
          | inr resp =>
              if StatusCode resp =? StatusOK then StepOk else BadStatus (StatusCode resp)
          end
      end
  end.

Definition stepError (r : StepResult) : option error :=
  match r with
  | StepOk => None
  | RandFailed e => Some (fmt_Errorf "failed to generate bytes: %w" [VError e])
  | RequestNotBuilt e => Some (fmt_Errorf "could make request: %w" [VError e])
  | TransportError e => Some (fmt_Errorf "could not execute request: %w" [VError e])
  | BadStatus code => Some (fmt_Errorf "did not get 200 response, got %v" [VInt code])
  end.

(** Was the request of the round put on the wire? *)
Definition stepSent (r : StepResult) : bool :=
  match r with
  | StepOk | TransportError _ | BadStatus _ => true
  | RandFailed _ | RequestNotBuilt _ => false
  end.

(** Did the request of the round fail: a transport error or a status other
    than 200? *)
Definition requestFailed (r : StepResult) : bool :=
  match r with
  | TransportError _ | BadStatus _ => true
  | _ => false
  end.

Definition stepEvents (env : Env) (addr : string) (k : nat) (size : Z) : list Event :=
  [LogPrintf "sending %v bytes\n" [VInt size]; RandRead (Z.to_nat (Z.quot size 2))]
  ++ (if stepSent (stepResult env addr k size) then [ClientDo (stepRequest env addr k size)]
      else []).

(** The [i]-th round of a run that starts at [2^start]. *)
Definition roundSize (start : Z) (i : nat) : Z := 2 ^ (start + Z.of_nat i).

Definition roundResult (env : Env) (addr : string) (start : Z) (i : nat) : StepResult :=
  stepResult env addr i (roundSize start i).

Definition roundEvents (env : Env) (addr : string) (start : Z) (i : nat) : list Event :=
  stepEvents env addr i (roundSize start i).

Definition roundOk (env : Env) (addr : string) (start : Z) (i : nat) : bool :=
  match roundResult env addr start i with
  | StepOk => true
  | _ => false
  end.

(** ** Observations on a trace *)

(** The requests put on the wire, in order. *)
Fixpoint requestsOf (t : list Event) : list Request :=
  match t with
  | [] => []
  | ClientDo req :: rest => req :: requestsOf rest
  | _ :: rest => requestsOf rest
  end.

Definition bodySize (req : Request) : Z := Z.of_nat (List.length (content (Body req))).

(** The payload sizes sent, in order. *)
Definition sentSizes (t : list Event) : list Z := map bodySize (requestsOf t).

(** The sizes announced in the log by [sending %v bytes], one per round. *)
Fixpoint roundsOf (t : list Event) : list Z :=
  match t with
  | [] => []
  | LogPrintf "sending %v bytes\n" [VInt n] :: rest => n :: roundsOf rest
  | _ :: rest => roundsOf rest
  end.

(** [2^start; ...; 2^(start+n-1)]. *)
Definition powersOfTwo (start : Z) (n : nat) : list Z :=
  map (roundSize start) (seq 0 n).

(** Every element after the first is twice the one before it. *)
Fixpoint doubling (l : list Z) : Prop :=
  match l with
  | a :: (b :: _) as rest => b = 2 * a /\ doubling rest
  | _ => True
  end.

Definition is_hex_byte (b : byte) : bool := is_hex_char (ascii_of_byte b).

(** The steps [send] works with, after the defaults have replaced what is
    not positive. *)
Definition effectiveStep (flag : option Z) (default : Z) : Z :=
  match flag with
  | Some v => if v >? 0 then v else default
  | None => default
  end.

Definition startOf (flags : Flags) : Z := effectiveStep (sendStartStep flags) 1.
Definition endOf (flags : Flags) : Z := effectiveStep (sendEndStep flags) 25.

(** The result and the trace of a function run from the initial world. *)
Definition result {A} (c : Go A) : A + Exit := fst (c initWorld).
Definition events {A} (c : Go A) : list Event := trace (snd (c initWorld)).

(** Are the step flags accepted by [send]? *)
Definition stepsValid (flags : Flags) : bool :=
  (startOf flags <? 32) && (endOf flags <? 32) && (startOf flags <=? endOf flags).

(** Does [send] get as far as its loop? *)
Definition accepted (flags : Flags) (args : list string) : bool :=
  (List.length args =? 1)%nat && stepsValid flags.

(** The number of sizes from [2^start] to [2^end]. *)
Definition rounds (flags : Flags) : nat :=
  Z.to_nat (endOf flags - startOf flags + 1).

(** The first round among [i, ..., i+n-1] that does not succeed. *)
Fixpoint firstFailure (env : Env) (addr : string) (start : Z) (i n : nat) : option nat :=
  match n with
  | O => None
  | S n' =>
      if roundOk env addr start i then firstFailure env addr start (S i) n'
      else Some i
  end.

(** [t] has a [Sleep d] and, later, a read of the body. *)
Definition sleptBeforeRead (d : Z) (t : list Event) : Prop :=
  exists t1 t2 t3 n err, t = t1 ++ Sleep d :: t2 ++ ReadAll n err :: t3.

(** The errors of the flag checks of [send]. *)
Definition errStartStep : error := fmt_Errorf "start-step cannot be greater than 31" [].
Definition errEndStep : error := fmt_Errorf "end-step cannot be greater than 31" [].
Definition errEndBeforeStart : error := fmt_Errorf "end-step cannot be less than start-step" [].

(** The request of the [i]-th round of a run that starts at [2^start]. *)
Definition roundRequest (env : Env) (addr : string) (start : Z) (i : nat) : Request :=
  stepRequest env addr i (roundSize start i).

(** How many requests a run puts on the wire when round [f] is the first
    that fails. *)
Definition sentUpTo (env : Env) (addr : string) (start : Z) (f : nat) : nat :=
  if stepSent (roundResult env addr start f) then S f else f.

(** ** Sample inputs *)

(** Random bytes all [0x1f], every URL well formed, every request answered
    with status 200. *)
Definition okEnv : Env :=
  mkEnv (fun _ => None) (fun _ _ => x1f) (fun _ => None)
        (fun _ _ => inr (mkResponse 200)) [] (foreign_error "http: Server closed").

(** As [okEnv], but the second request is answered with status 503. *)
Definition busyEnv : Env :=
  mkEnv (fun _ => None) (fun _ _ => x1f) (fun _ => None)
        (fun k _ => inr (mkResponse (if (k =? 1)%nat then 503 else 200)))
        [] (foreign_error "http: Server closed").

Definition getRequest : Request :=
  mkRequest "GET" "/" (mkReader [x00; x01] None).

Definition postRequest : Request :=
  mkRequest "POST" "/" (mkReader [x00; x01] None).

Definition brokenRequest : Request :=
  mkRequest "POST" "/" (mkReader [x00] (Some (foreign_error "unexpected EOF"))).

(** As [okEnv], but the URL [://] does not parse. *)
Definition strictEnv : Env :=
  mkEnv (fun _ => None) (fun _ _ => x1f)
        (fun u => if (u =? "://")%string
                  then Some (foreign_error "missing protocol scheme") else None)
        (fun _ _ => inr (mkResponse 200)) [] (foreign_error "http: Server closed").

(** ** What the handler leaves in the trace *)

(** The optional delay. *)
Definition delayEvents (flags : Flags) : list Event :=
  match respDelay flags with
  | Some d =>
      if d >? 0 * Second then
        [LogPrintf "waiting %s before reading/responding..." [VDuration d]; Sleep d]
      else []
  | None => []
  end.

(** The log line with the number of bytes read from the body of [r]. *)
Definition readLog (r : Request) : Event :=
  LogPrintf "read %v bytes from body\n" [VInt (Z.of_nat (List.length (content (Body r))))].

(** Reading the body, and what follows it. *)
Definition readEvents (r : Request) : list Event :=
  ReadAll (List.length (content (Body r))) (failure (Body r))
  :: match failure (Body r) with
     | Some e =>
         [LogPrintf "error reading body: %v\n" [VError e];
          WriteHeader StatusInternalServerError]
     | None => [readLog r]
     end.

(** A request that is not ignored. *)
Definition handledEvents (flags : Flags) (r : Request) : list Event :=
  LogPrintln "received request" :: delayEvents flags ++ readEvents r.

(** ** The entry point, [main] *)

(** How the process ends: [os.Exit], a panic nobody recovers, or a loop the
    bounded unrolling did not finish. *)
Inductive ProcessEnd : Type :=
| OsExit (code : Z)
| Crashed (reason : string)
| Unfinished.

(** [c; os.Exit(code)]. *)
Definition exitAfter (code : Z) (c : Go unit) (w : World) : ProcessEnd * World :=
  match c w with
  | (inr (Panic reason), w') => (Crashed reason, w')
  | (inr OutOfFuel, w') => (Unfinished, w')
  | (_, w') => (OsExit code, w')
  end.

(** One case of the [switch] of [main], with the [os.Exit(0)] behind it:
    [if err := f(args[1:]); err != nil { log.Printf(format, err); os.Exit(1) }]
    and then [os.Exit(0)]. *)
Definition runOrExit (format : string) (c : Go unit) (w : World) : ProcessEnd * World :=
  match c w with
  | (inr (Returned (Some err)), w') => exitAfter 1 (log_Printf format [VError err]) w'
  | (inr (Panic reason), w') => (Crashed reason, w')
  | (inr OutOfFuel, w') => (Unfinished, w')
  | (_, w') => (OsExit 0, w')
  end.

(** [main], given the two subcommands; [args] is [flag.Args()], the command
    line after the flags. *)
Definition mainWith (listenCmd sendCmd : list string -> Go unit) (args : list string)
  (w : World) : ProcessEnd * World :=
  if (List.length args =? 0)%nat then exitAfter 1 printUsage w
  else
    let sub := nth 0 args "" in
    if (sub =? "listen")%string then
      runOrExit "failed to listen: %v\n" (listenCmd (tl args)) w
    else if (sub =? "send")%string then
      runOrExit "failed to send: %v\n" (sendCmd (tl args)) w
    else
      exitAfter 1 (log_Printf "unknown arg %v" [VString sub] ;; printUsage) w.

Definition main (intSize : Z) (env : Env) (flags : Flags) (args : list string)
  : World -> ProcessEnd * World :=
  mainWith (listen env flags) (send intSize env flags) args.

(** [main] of the earlier revision: the same text over its own subcommands. *)
Definition mainRev0 (intSize : Z) (env : Env) (flags : Flags) (args : list string)
  : World -> ProcessEnd * World :=
  mainWith (Rev0.listen env flags) (Rev0.send intSize env) args.

(** ** More observations on a trace *)

(** How often the body was read, and how often a status was written. *)
Fixpoint readsOf (t : list Event) : nat :=
  match t with
  | [] => 0
  | ReadAll _ _ :: rest => S (readsOf rest)
  | _ :: rest => readsOf rest
  end.

Fixpoint headersOf (t : list Event) : nat :=
  match t with
  | [] => 0
  | WriteHeader _ :: rest => S (headersOf rest)
  | _ :: rest => headersOf rest
  end.

Definition sumZ (l : list Z) : Z := fold_right Z.add 0 l.

Definition notGet (r : Request) : bool := negb (Method r =? "GET")%string.

(** The value of a hexadecimal digit of [hextable], and the byte of two. *)
Definition hexvalue (c : ascii) : N :=
  match c with
  | "0" => 0 | "1" => 1 | "2" => 2 | "3" => 3 | "4" => 4 | "5" => 5 | "6" => 6
  | "7" => 7 | "8" => 8 | "9" => 9 | "a" => 10 | "b" => 11 | "c" => 12
  | "d" => 13 | "e" => 14 | "f" => 15 | _ => 0
  end%char%N.

Definition byteOfHex (hi lo : ascii) : option byte :=
  Byte.of_N (16 * hexvalue hi + hexvalue lo).

(** ** Proof steps used more than once *)

(** Split on the sign tests of the flag checks. *)
Ltac case_positive :=
  repeat match goal with
    | |- context [?v >? 0] => destruct (v >? 0) eqn:?
    | H : (?v >? 0) = true |- _ => apply Z.gtb_lt in H
    | H : (?v >? 0) = false |- _ => rewrite Z.gtb_ltb in H; apply Z.ltb_ge in H
    end.

(** Settle the tests against 32 from the hypotheses. *)
Ltac decide_cmp :=
  repeat match goal with
    | |- context [?v >=? 32] =>
        first
          [ replace (v >=? 32) with false by (symmetry; rewrite Z.geb_leb; apply Z.leb_gt; lia)
          | replace (v >=? 32) with true by (symmetry; rewrite Z.geb_leb; apply Z.leb_le; lia) ]
    end.

(** Split on the delay and on the outcome of reading the body. *)
Ltac handler_cases flags r :=
  unfold handledEvents, delayEvents, readEvents, readLog;
  destruct (respDelay flags) as [?d|]; [destruct (_ >? 0 * Second) eqn:?|];
  destruct (failure (Body r)) as [?e|] eqn:?;
  cbn [app In].

(** * Proofs *)
(** ** Integer arithmetic *)

Lemma wrap_small (intSize z : Z) :
  0 < intSize ->
  - 2 ^ (intSize - 1) <= z < 2 ^ (intSize - 1) ->
  wrap intSize z = z.
Proof.
  intros Hpos Hz. unfold wrap.
  assert (Hpow : 2 ^ intSize = 2 * 2 ^ (intSize - 1)).
  { replace intSize with (Z.succ (intSize - 1)) at 1 by lia.
    rewrite Z.pow_succ_r by lia. reflexivity. }
  rewrite Hpow, Z.mod_small by lia. lia.
Qed.

Lemma shl_double (intSize z : Z) :
  0 < intSize ->
  0 <= z -> 2 * z < 2 ^ (intSize - 1) ->
  shl intSize z 1 = 2 * z.
Proof.
  intros Hpos Hz Hlt. unfold shl.
  rewrite Z.shiftl_mul_pow2 by lia.
  change (2 ^ 1) with 2.
  rewrite wrap_small by lia. lia.
Qed.

Lemma shl_one (intSize s : Z) :
  0 <= s -> s + 1 < intSize ->
  shl intSize 1 s = 2 ^ s.
Proof.
  intros Hs Hlt. unfold shl.
  rewrite Z.shiftl_mul_pow2 by lia.
  rewrite Z.mul_1_l.
  apply wrap_small; [lia|].
  split.
  - pose proof (Z.pow_pos_nonneg 2 (intSize - 1)). pose proof (Z.pow_pos_nonneg 2 s). lia.
  - apply Z.pow_lt_mono_r; lia.
Qed.

Lemma to_uint_small (intSize v : Z) :
  5 < intSize -> 0 < v < 32 -> to_uint intSize v = v.
Proof.
  intros Hsz Hv. unfold to_uint. apply Z.mod_small.
  assert (2 ^ 5 < 2 ^ intSize) by (apply Z.pow_lt_mono_r; lia).
  change (2 ^ 5) with 32 in *. lia.
Qed.

Lemma roundSize_pos (start : Z) (i : nat) : 0 <= start -> 0 < roundSize start i.
Proof. intros H. unfold roundSize. apply Z.pow_pos_nonneg; lia. Qed.

Lemma roundSize_succ (start : Z) (i : nat) :
  0 <= start -> roundSize start (S i) = 2 * roundSize start i.
Proof.
  intros H. unfold roundSize.
  replace (start + Z.of_nat (S i)) with (Z.succ (start + Z.of_nat i)) by lia.
  apply Z.pow_succ_r. lia.
Qed.

Lemma roundSize_half (start : Z) (i : nat) :
  1 <= start -> Z.quot (roundSize start i) 2 = 2 ^ (start + Z.of_nat i - 1).
Proof.
  intros H. unfold roundSize.
  replace (start + Z.of_nat i) with (Z.succ (start + Z.of_nat i - 1)) at 1 by lia.
  rewrite Z.pow_succ_r by lia.
  rewrite Z.mul_comm. apply Z.quot_mul. lia.
Qed.

Lemma roundSize_lt (start : Z) (i j : nat) :
  0 <= start -> (i < j)%nat -> roundSize start i < roundSize start j.
Proof. intros H Hij. unfold roundSize. apply Z.pow_lt_mono_r; lia. Qed.

Lemma roundSize_le (start : Z) (i j : nat) :
  0 <= start -> (i <= j)%nat -> roundSize start i <= roundSize start j.
Proof. intros H Hij. unfold roundSize. apply Z.pow_le_mono_r; lia. Qed.

(** ** encoding/hex *)

Lemma hexdigits_of_byte (v : byte) :
  is_hex_char (hexdigit (N.shiftr (Byte.to_N v) 4)) = true
  /\ is_hex_char (hexdigit (N.land (Byte.to_N v) 15)) = true.
Proof. destruct v; split; reflexivity. Qed.

Lemma EncodeToString_length (src : list byte) :
  String.length (EncodeToString src) = (2 * List.length src)%nat.
Proof.
  induction src as [|v rest IH]; simpl; [reflexivity|].
  rewrite IH. lia.
Qed.

Lemma EncodeToString_hex (src : list byte) :
  Forall (fun c => is_hex_char c = true) (list_ascii_of_string (EncodeToString src)).
Proof.
  induction src as [|v rest IH]; simpl; [constructor|].
  destruct (hexdigits_of_byte v) as [Hhi Hlo].
  constructor; [exact Hhi|]. constructor; [exact Hlo|exact IH].
Qed.

Lemma list_byte_of_string_length (s : string) :
  List.length (list_byte_of_string s) = String.length s.
Proof.
  unfold list_byte_of_string. rewrite length_map.
  induction s as [|c s IH]; simpl; [reflexivity|]. now rewrite IH.
Qed.

Lemma list_byte_of_string_hex (s : string) :
  Forall (fun c => is_hex_char c = true) (list_ascii_of_string s) ->
  Forall (fun b => is_hex_byte b = true) (list_byte_of_string s).
Proof.
  unfold list_byte_of_string, is_hex_byte. intros H.
  induction H as [|c l Hc Hl IH]; simpl; constructor.
  - now rewrite ascii_of_byte_of_ascii.
  - exact IH.
Qed.

Lemma payload_length (env : Env) (k n : nat) : List.length (payload env k n) = n.
Proof. unfold payload. now rewrite length_map, length_seq. Qed.

Lemma putRequest_size (addr : string) (b : list byte) :
  bodySize (putRequest addr b) = 2 * Z.of_nat (List.length b).
Proof.
  unfold bodySize, putRequest, bytes_NewReader, Body, content.
  rewrite list_byte_of_string_length, EncodeToString_length. lia.
Qed.

Lemma putRequest_hex (addr : string) (b : list byte) :
  Forall (fun c => is_hex_byte c = true) (content (Body (putRequest addr b))).
Proof. simpl. apply list_byte_of_string_hex, EncodeToString_hex. Qed.

Lemma stepRequest_size (env : Env) (addr : string) (start : Z) (k i : nat) :
  1 <= start ->
  bodySize (stepRequest env addr k (roundSize start i)) = roundSize start i.
Proof.
  intros Hs. unfold stepRequest.
  rewrite putRequest_size, payload_length.
  rewrite roundSize_half by exact Hs.
  rewrite Z2Nat.id by (apply Z.pow_nonneg; lia).
  unfold roundSize.
  replace (start + Z.of_nat i) with (Z.succ (start + Z.of_nat i - 1)) at 2 by lia.
  rewrite Z.pow_succ_r by lia. reflexivity.
Qed.

(** ** One round *)

Lemma iteration_run (env : Env) (addr : string) (size : Z) (w : World) (k : nat) :
  0 <= size -> randCalls w = k -> doCalls w = k ->
  let r := stepResult env addr k size in
  fst (iteration env addr size w)
    = match stepError r with
      | None => inl tt
      | Some e => inr (Returned (Some e))
      end
  /\ trace (snd (iteration env addr size w)) = trace w ++ stepEvents env addr k size
  /\ (stepError r = None ->
      randCalls (snd (iteration env addr size w)) = S k
      /\ doCalls (snd (iteration env addr size w)) = S k).
Proof.
  intros Hsize Hr Hd r. subst r.
  unfold iteration, stepEvents, stepResult, bind, log_Printf, emit, make_bytes.
  assert (Hq : (Z.quot size 2 <? 0) = false).
  { apply Z.ltb_ge. apply Z.quot_pos; lia. }
  rewrite Hq. unfold ret, rand_Read. simpl. rewrite Hr.
  destruct (randError env k) as [e|]; simpl.
  { repeat split; try discriminate. now rewrite <- app_assoc. }
  unfold http_NewRequest.
  destruct (urlError env addr) as [e|]; simpl.
  { repeat split; try discriminate. now rewrite <- app_assoc. }
  unfold client_Do. simpl. rewrite Hd.
  fold (payload env k (Z.to_nat (Z.quot size 2))).
  fold (putRequest addr (payload env k (Z.to_nat (Z.quot size 2)))).
  fold (stepRequest env addr k size).
  destruct (roundTrip env k (stepRequest env addr k size)) as [e|resp]; simpl.
  { repeat split; try discriminate. now rewrite <- !app_assoc. }
  destruct (StatusCode resp =? StatusOK); simpl.
  - repeat split. now rewrite <- !app_assoc.
  - repeat split; try discriminate. now rewrite <- !app_assoc.
Qed.

(** ** The loop *)

Section Loop.

Variables (intSize : Z) (env : Env) (addr : string) (start maxBytes : Z).
Hypothesis intSize_pos : 0 < intSize.
Hypothesis start_pos : 1 <= start.

(** [n] rounds that all succeed, from round [i] on: the loop is then where
    it would be had it started at round [i + n]. *)
Lemma send_loop_rounds (n : nat) :
  forall (i fuel : nat) (w : World),
    roundSize start (i + n) < 2 ^ (intSize - 1) ->
    (forall j, (i <= j < i + n)%nat -> roundSize start j <= maxBytes) ->
    (forall j, (i <= j < i + n)%nat -> roundOk env addr start j = true) ->
    randCalls w = i -> doCalls w = i ->
    exists w',
      send_loop intSize (n + fuel) env addr maxBytes (roundSize start i) w
        = send_loop intSize fuel env addr maxBytes (roundSize start (i + n)) w'
      /\ trace w' = trace w ++ flat_map (roundEvents env addr start) (seq i n)
      /\ randCalls w' = (i + n)%nat /\ doCalls w' = (i + n)%nat.
Proof.
  induction n as [|n IH]; intros i fuel w Hfit Hle Hok Hr Hd.
  - exists w. rewrite Nat.add_0_r, app_nil_r. auto.
  - assert (Hsz : roundSize start i <= maxBytes) by (apply Hle; lia).
    assert (Hoki : roundOk env addr start i = true) by (apply Hok; lia).
    pose proof (roundSize_pos start i ltac:(lia)) as Hpos.
    destruct (iteration_run env addr (roundSize start i) w i ltac:(lia) Hr Hd)
      as (Hres & Htr & Hcnt).
    assert (Herr : stepError (stepResult env addr i (roundSize start i)) = None).
    { unfold roundOk, roundResult in Hoki.
      destruct (stepResult env addr i (roundSize start i)); try discriminate. reflexivity. }
    rewrite Herr in Hres. destruct (Hcnt Herr) as [Hr' Hd'].
    destruct (IH (S i) fuel (snd (iteration env addr (roundSize start i) w)))
      as (w' & Hrun & Htr' & Hr'' & Hd'').
    + replace (S i + n)%nat with (i + S n)%nat by lia. exact Hfit.
    + intros j Hj. apply Hle. lia.
    + intros j Hj. apply Hok. lia.
    + exact Hr'.
    + exact Hd'.
    + exists w'. split; [|split; [|split]].
      * replace (i + S n)%nat with (S i + n)%nat by lia. rewrite <- Hrun.
        change (S n + fuel)%nat with (S (n + fuel)).
        cbn [send_loop]. apply Z.leb_le in Hsz. rewrite Hsz.
        unfold bind at 1.
        destruct (iteration env addr (roundSize start i) w) as [[[]|x] w1];
          cbn [fst snd] in *; [|discriminate].
        rewrite shl_double; [now rewrite roundSize_succ by lia|lia|lia|].
        rewrite <- roundSize_succ by lia.
        apply Z.le_lt_trans with (roundSize start (i + S n)); [|exact Hfit].
        apply roundSize_le; lia.
      * rewrite Htr', Htr. cbn [seq flat_map]. now rewrite <- app_assoc.
      * lia.
      * lia.
Qed.

(** The loop stops at the first size above [maxBytes]. *)
Lemma send_loop_done (fuel : nat) (size : Z) (w : World) :
  maxBytes < size ->
  send_loop intSize (S fuel) env addr maxBytes size w = (inl tt, w).
Proof.
  intros H. cbn [send_loop]. apply Z.leb_gt in H. now rewrite H.
Qed.

(** The loop leaves the function in a round that fails. *)
Lemma send_loop_fails (fuel i : nat) (w : World) (e : error) :
  roundSize start i <= maxBytes ->
  randCalls w = i -> doCalls w = i ->
  stepError (roundResult env addr start i) = Some e ->
  fst (send_loop intSize (S fuel) env addr maxBytes (roundSize start i) w)
    = inr (Returned (Some e))
  /\ trace (snd (send_loop intSize (S fuel) env addr maxBytes (roundSize start i) w))
     = trace w ++ roundEvents env addr start i.
Proof.
  intros Hsz Hr Hd Herr.
  pose proof (roundSize_pos start i ltac:(lia)) as Hpos.
  destruct (iteration_run env addr (roundSize start i) w i ltac:(lia) Hr Hd)
    as (Hres & Htr & _).
  unfold roundResult in Herr. rewrite Herr in Hres.
  cbn [send_loop]. apply Z.leb_le in Hsz. rewrite Hsz.
  unfold bind.
  destruct (iteration env addr (roundSize start i) w) as [[[]|x] w1];
    cbn [fst snd] in *; [discriminate|].
  split; [exact Hres|exact Htr].
Qed.

End Loop.

(** ** [send] on a 64-bit [int] *)

Lemma firstFailure_none (env : Env) (addr : string) (start : Z) (n : nat) :
  forall i, firstFailure env addr start i n = None ->
  forall j, (i <= j < i + n)%nat -> roundOk env addr start j = true.
Proof.
  induction n as [|n IH]; intros i H j Hj; [lia|].
  cbn [firstFailure] in H.
  destruct (roundOk env addr start i) eqn:Hi; [|discriminate].
  destruct (Nat.eq_dec j i) as [->|Hne]; [exact Hi|].
  apply (IH (S i) H). lia.
Qed.

Lemma firstFailure_some (env : Env) (addr : string) (start : Z) (n : nat) :
  forall i f, firstFailure env addr start i n = Some f ->
  (i <= f < i + n)%nat
  /\ roundOk env addr start f = false
  /\ forall j, (i <= j < f)%nat -> roundOk env addr start j = true.
Proof.
  induction n as [|n IH]; intros i f H; [discriminate|].
  cbn [firstFailure] in H.
  destruct (roundOk env addr start i) eqn:Hi.
  - destruct (IH (S i) f H) as (Hf & Hbad & Hbefore).
    split; [lia|]. split; [exact Hbad|].
    intros j Hj. destruct (Nat.eq_dec j i) as [->|Hne]; [exact Hi|].
    apply Hbefore. lia.
  - injection H as <-. split; [lia|]. split; [exact Hi|]. intros j Hj. lia.
Qed.

Lemma roundOk_stepError (env : Env) (addr : string) (start : Z) (i : nat) :
  roundOk env addr start i = true <-> stepError (roundResult env addr start i) = None.
Proof.
  unfold roundOk. destruct (roundResult env addr start i); simpl; split; congruence.
Qed.

Lemma effectiveStep_pos (flag : option Z) (default : Z) :
  0 < default -> 0 < effectiveStep flag default.
Proof.
  intros H. unfold effectiveStep. destruct flag as [v|]; [|exact H].
  destruct (v >? 0) eqn:Hv; [|exact H]. apply Z.gtb_lt in Hv. lia.
Qed.

Lemma stepsValid_bounds (flags : Flags) :
  stepsValid flags = true ->
  1 <= startOf flags /\ startOf flags <= endOf flags /\ endOf flags < 32.
Proof.
  unfold stepsValid. intros H.
  apply andb_prop in H as [H Hle]. apply andb_prop in H as [Hs He].
  apply Z.ltb_lt in Hs, He. apply Z.leb_le in Hle.
  pose proof (effectiveStep_pos (sendStartStep flags) 1 ltac:(lia)) as Hpos.
  fold (startOf flags) in Hpos. lia.
Qed.

(** What is left of [send] once the argument and the flags are accepted. *)
Lemma send_accepted (env : Env) (flags : Flags) (addr : string) (w : World) :
  stepsValid flags = true ->
  send int64Size env flags [addr] w
  = (send_loop int64Size (loopFuel int64Size) env addr
       (2 ^ endOf flags) (2 ^ startOf flags) ;; return_ None) w.
Proof.
  intros Hvalid. destruct (stepsValid_bounds flags Hvalid) as (Hs & Hse & He).
  unfold startOf, endOf, effectiveStep in *.
  unfold send. cbn [List.length Nat.eqb negb nth].
  destruct (sendStartStep flags) as [sv|], (sendEndStep flags) as [ev|];
    repeat match goal with
      | |- context [?v >? 0] => destruct (v >? 0) eqn:?
      | H : (?v >? 0) = true |- _ => apply Z.gtb_lt in H
      end;
    repeat match goal with
      | |- context [?v >=? 32] =>
          let H := fresh in
          assert (H : (v >=? 32) = false) by (rewrite Z.geb_leb; apply Z.leb_gt; lia);
          rewrite H; clear H
      end;
    unfold bind at 1; unfold ret at 1; cbv beta iota;
    unfold bind at 1; unfold ret at 1; cbv beta iota;
    rewrite ?to_uint_small by (unfold int64Size; lia);
    match goal with
    | |- context [?e <? ?s] =>
        let H := fresh in
        assert (H : (e <? s) = false) by (apply Z.ltb_ge; lia); rewrite H; clear H
    end;
    rewrite !shl_one by (unfold int64Size; lia); reflexivity.
Qed.

Lemma send_start_too_big (env : Env) (flags : Flags) (addr : string) (w : World) :
  32 <= startOf flags ->
  send int64Size env flags [addr] w = (inr (Returned (Some errStartStep)), w).
Proof.
  unfold startOf, effectiveStep, send. cbn [List.length Nat.eqb negb nth].
  intros H. destruct (sendStartStep flags) as [sv|]; [|lia].
  case_positive; [|lia]. decide_cmp. reflexivity.
Qed.

Lemma send_end_too_big (env : Env) (flags : Flags) (addr : string) (w : World) :
  startOf flags < 32 -> 32 <= endOf flags ->
  send int64Size env flags [addr] w = (inr (Returned (Some errEndStep)), w).
Proof.
  unfold startOf, endOf, effectiveStep, send. cbn [List.length Nat.eqb negb nth].
  intros Hs He.
  destruct (sendEndStep flags) as [ev|]; [|lia].
  destruct (sendStartStep flags) as [sv|]; case_positive; try lia; decide_cmp; reflexivity.
Qed.

Lemma send_end_before_start (env : Env) (flags : Flags) (addr : string) (w : World) :
  startOf flags < 32 -> endOf flags < 32 -> endOf flags < startOf flags ->
  send int64Size env flags [addr] w = (inr (Returned (Some errEndBeforeStart)), w).
Proof.
  unfold startOf, endOf, effectiveStep, send. cbn [List.length Nat.eqb negb nth].
  intros Hs He Hlt.
  destruct (sendStartStep flags) as [sv|], (sendEndStep flags) as [ev|];
    case_positive; try lia; decide_cmp;
    unfold bind at 1; unfold ret at 1; cbv beta iota;
    unfold bind at 1; unfold ret at 1; cbv beta iota;
    rewrite ?to_uint_small by (unfold int64Size; lia);
    match goal with
    | |- context [?e <? ?s] =>
        replace (e <? s) with true by (symmetry; apply Z.ltb_lt; lia)
    end; reflexivity.
Qed.

Lemma send_rejected (env : Env) (flags : Flags) (addr : string) (w : World) :
  stepsValid flags = false ->
  exists err, send int64Size env flags [addr] w = (inr (Returned (Some err)), w).
Proof.
  unfold stepsValid. intros H.
  destruct (Z.ltb_spec (startOf flags) 32) as [Hs|Hs].
  - destruct (Z.ltb_spec (endOf flags) 32) as [He|He].
    + destruct (Z.leb_spec (startOf flags) (endOf flags)) as [Hle|Hlt]; [discriminate|].
      eexists. now apply send_end_before_start.
    + eexists. now apply send_end_too_big.
  - eexists. now apply send_start_too_big.
Qed.

Lemma send_wrong_args (env : Env) (flags : Flags) (args : list string) (w : World) :
  List.length args <> 1%nat ->
  send int64Size env flags args w
  = (inr (Returned (Some (errors_New "send expects exactly 1 argument"))),
     mkWorld (trace w ++ [Println usageText]) (randCalls w) (doCalls w)).
Proof.
  intros H. unfold send.
  apply Nat.eqb_neq in H. rewrite H. reflexivity.
Qed.

Section Send64.

Variables (env : Env) (flags : Flags) (addr : string).
Hypothesis valid : stepsValid flags = true.

Lemma rounds_end : Z.of_nat (rounds flags) = endOf flags - startOf flags + 1.
Proof.
  destruct (stepsValid_bounds flags valid) as (Hs & Hse & He).
  unfold rounds. lia.
Qed.

Lemma roundSize_in_range (j : nat) :
  (j < rounds flags)%nat <-> roundSize (startOf flags) j <= 2 ^ endOf flags.
Proof.
  destruct (stepsValid_bounds flags valid) as (Hs & Hse & He).
  pose proof rounds_end as Hm.
  unfold roundSize. split; intros H.
  - apply Z.pow_le_mono_r; lia.
  - apply Z.pow_le_mono_r_iff in H; lia.
Qed.

Lemma roundSize_fits (j : nat) :
  (j <= rounds flags)%nat -> roundSize (startOf flags) j < 2 ^ (int64Size - 1).
Proof.
  destruct (stepsValid_bounds flags valid) as (Hs & Hse & He).
  pose proof rounds_end as Hm.
  intros H. unfold roundSize, int64Size. apply Z.pow_lt_mono_r; lia.
Qed.

Lemma loopFuel_split (n : nat) :
  (n <= rounds flags)%nat -> exists fuel, loopFuel int64Size = (n + S fuel)%nat.
Proof.
  destruct (stepsValid_bounds flags valid) as (Hs & Hse & He).
  pose proof rounds_end as Hm.
  intros H. exists (64 - n)%nat. unfold loopFuel, int64Size. lia.
Qed.

Lemma roundSize_first : 2 ^ startOf flags = roundSize (startOf flags) 0.
Proof. unfold roundSize. f_equal. lia. Qed.

(** Every round succeeds: [send] returns [nil] after all of them. *)
Lemma send_all_ok :
  (forall i, (i < rounds flags)%nat -> roundOk env addr (startOf flags) i = true) ->
  result (send int64Size env flags [addr]) = inr (Returned None)
  /\ events (send int64Size env flags [addr])
     = flat_map (roundEvents env addr (startOf flags)) (seq 0 (rounds flags)).
Proof.
  intros Hok.
  destruct (stepsValid_bounds flags valid) as (Hs & Hse & He).
  unfold result, events. rewrite send_accepted by exact valid.
  destruct (loopFuel_split (rounds flags) (le_n _)) as [fuel ->].
  destruct (send_loop_rounds int64Size env addr (startOf flags) (2 ^ endOf flags)
              ltac:(unfold int64Size; lia) Hs (rounds flags) 0 (S fuel) initWorld)
    as (w' & Hrun & Htr & _).
  - apply roundSize_fits. lia.
  - intros j Hj. apply roundSize_in_range. lia.
  - intros j Hj. apply Hok. lia.
  - reflexivity.
  - reflexivity.
  - rewrite roundSize_first.
    unfold bind. rewrite Hrun. cbn [Nat.add].
    rewrite send_loop_done.
    + split; [reflexivity|exact Htr].
    + apply Z.lt_nge. intros Hle. apply roundSize_in_range in Hle. lia.
Qed.

(** Round [f] is the first that fails: [send] returns its error there. *)
Lemma send_first_failure (f : nat) :
  (f < rounds flags)%nat ->
  (forall i, (i < f)%nat -> roundOk env addr (startOf flags) i = true) ->
  roundOk env addr (startOf flags) f = false ->
  exists e,
    stepError (roundResult env addr (startOf flags) f) = Some e
    /\ result (send int64Size env flags [addr]) = inr (Returned (Some e))
    /\ events (send int64Size env flags [addr])
       = flat_map (roundEvents env addr (startOf flags)) (seq 0 f)
         ++ roundEvents env addr (startOf flags) f.
Proof.
  intros Hf Hok Hbad.
  destruct (stepsValid_bounds flags valid) as (Hs & Hse & He).
  destruct (stepError (roundResult env addr (startOf flags) f)) as [e|] eqn:Herr.
  2:{ apply roundOk_stepError in Herr. congruence. }
  exists e. split; [reflexivity|].
  unfold result, events. rewrite send_accepted by exact valid.
  destruct (loopFuel_split f ltac:(lia)) as [fuel ->].
  destruct (send_loop_rounds int64Size env addr (startOf flags) (2 ^ endOf flags)
              ltac:(unfold int64Size; lia) Hs f 0 (S fuel) initWorld)
    as (w' & Hrun & Htr & Hr & Hd).
  - apply roundSize_fits. lia.
  - intros j Hj. apply roundSize_in_range. lia.
  - intros j Hj. apply Hok. lia.
  - reflexivity.
  - reflexivity.
  - rewrite roundSize_first.
    unfold bind. rewrite Hrun. cbn [Nat.add].
    destruct (send_loop_fails int64Size env addr (startOf flags) (2 ^ endOf flags) Hs
                fuel f w' e) as [Hres Htr'].
    + apply roundSize_in_range. exact Hf.
    + exact Hr.
    + exact Hd.
    + exact Herr.
    + destruct (send_loop int64Size (S fuel) env addr (2 ^ endOf flags)
                  (roundSize (startOf flags) f) w') as [[[]|x] w1]; cbn [fst snd] in *.
      * discriminate.
      * split; [exact Hres|]. rewrite Htr', Htr. reflexivity.
Qed.

End Send64.

(** ** Reading a trace *)

Lemma requestsOf_app (t u : list Event) :
  requestsOf (t ++ u) = requestsOf t ++ requestsOf u.
Proof.
  induction t as [|ev t IH]; [reflexivity|].
  destruct ev; cbn [app requestsOf]; rewrite IH; reflexivity.
Qed.

Lemma roundsOf_cons_other (ev : Event) (t : list Event) :
  (forall n, ev <> LogPrintf "sending %v bytes\n" [VInt n]) ->
  roundsOf (ev :: t) = roundsOf t.
Proof.
  intros H. destruct ev; try reflexivity.
  cbn [roundsOf].
  repeat match goal with
    | |- match ?x with _ => _ end = _ => destruct x; try reflexivity
    end.
  exfalso. eapply H. reflexivity.
Qed.

Lemma roundsOf_app (t u : list Event) :
  roundsOf (t ++ u) = roundsOf t ++ roundsOf u.
Proof.
  induction t as [|ev t IH]; [reflexivity|].
  destruct ev; try (cbn [app roundsOf]; exact IH).
  rewrite <- app_comm_cons. cbn [roundsOf].
  repeat match goal with
    | |- match ?x with _ => _ end = _ => destruct x; try exact IH
    end.
  cbn [app]. now rewrite IH.
Qed.

Lemma requestsOf_round (env : Env) (addr : string) (start : Z) (i : nat) :
  requestsOf (roundEvents env addr start i)
  = if stepSent (roundResult env addr start i) then [roundRequest env addr start i] else [].
Proof.
  unfold roundEvents, stepEvents, roundResult, roundRequest.
  destruct (stepSent _); reflexivity.
Qed.

Lemma roundsOf_round (env : Env) (addr : string) (start : Z) (i : nat) :
  roundsOf (roundEvents env addr start i) = [roundSize start i].
Proof.
  unfold roundEvents, stepEvents, roundResult.
  destruct (stepSent _); reflexivity.
Qed.

Lemma roundsOf_rounds (env : Env) (addr : string) (start : Z) (n : nat) :
  forall i, roundsOf (flat_map (roundEvents env addr start) (seq i n))
            = map (roundSize start) (seq i n).
Proof.
  induction n as [|n IH]; intros i; [reflexivity|].
  cbn [seq flat_map map]. rewrite roundsOf_app, roundsOf_round, IH. reflexivity.
Qed.

Lemma roundOk_sent (env : Env) (addr : string) (start : Z) (i : nat) :
  roundOk env addr start i = true -> stepSent (roundResult env addr start i) = true.
Proof.
  unfold roundOk. destruct (roundResult env addr start i); simpl; congruence.
Qed.

Lemma requestsOf_rounds (env : Env) (addr : string) (start : Z) (n : nat) :
  forall i,
    (forall j, (i <= j < i + n)%nat -> roundOk env addr start j = true) ->
    requestsOf (flat_map (roundEvents env addr start) (seq i n))
    = map (roundRequest env addr start) (seq i n).
Proof.
  induction n as [|n IH]; intros i Hok; [reflexivity|].
  cbn [seq flat_map map]. rewrite requestsOf_app, requestsOf_round.
  rewrite roundOk_sent by (apply Hok; lia).
  rewrite IH by (intros j Hj; apply Hok; lia). reflexivity.
Qed.

Lemma roundRequest_size (env : Env) (addr : string) (start : Z) (i : nat) :
  1 <= start -> bodySize (roundRequest env addr start i) = roundSize start i.
Proof. intros H. unfold roundRequest. now apply stepRequest_size. Qed.

Lemma sizes_of_rounds (env : Env) (addr : string) (start : Z) (n : nat) :
  1 <= start ->
  map bodySize (map (roundRequest env addr start) (seq 0 n)) = powersOfTwo start n.
Proof.
  intros H. unfold powersOfTwo. rewrite map_map. apply map_ext.
  intros i. now apply roundRequest_size.
Qed.

Lemma powersOfTwo_doubling (start : Z) (n : nat) :
  0 <= start -> doubling (powersOfTwo start n).
Proof.
  intros H. unfold powersOfTwo. generalize 0%nat.
  induction n as [|n IH]; intros i; [exact I|].
  cbn [seq map]. destruct n as [|n]; [exact I|].
  cbn [seq map doubling]. split.
  - now apply roundSize_succ.
  - apply (IH (S i)).
Qed.

Lemma powersOfTwo_hd (start : Z) (n : nat) :
  hd_error (powersOfTwo start (S n)) = Some (2 ^ start).
Proof. unfold powersOfTwo, roundSize. cbn [seq map hd_error]. do 2 f_equal. lia. Qed.

Lemma powersOfTwo_last (start : Z) (n : nat) :
  last (powersOfTwo start (S n)) 0 = 2 ^ (start + Z.of_nat n).
Proof.
  unfold powersOfTwo. rewrite seq_S, map_app. cbn [map Nat.add].
  now rewrite last_last.
Qed.

Lemma powersOfTwo_firstn (start : Z) (c n : nat) :
  (c <= n)%nat -> firstn c (powersOfTwo start n) = powersOfTwo start c.
Proof.
  intros H. unfold powersOfTwo. rewrite firstn_map. f_equal.
  replace n with (c + (n - c))%nat by lia.
  rewrite seq_app, firstn_app, length_seq, Nat.sub_diag, firstn_O, app_nil_r.
  apply firstn_all2. rewrite length_seq. lia.
Qed.

Lemma nth_error_map_seq {A} (f : nat -> A) (n i : nat) :
  nth_error (map f (seq 0 n)) i = if (i <? n)%nat then Some (f i) else None.
Proof.
  rewrite nth_error_map, nth_error_seq.
  destruct (i <? n)%nat; reflexivity.
Qed.

(** ** The outcome of [send] *)

Lemma parsedFlags_steps (d s e : Z) :
  0 < s -> s <= e -> e < 32 ->
  startOf (parsedFlags d s e) = s
  /\ endOf (parsedFlags d s e) = e
  /\ stepsValid (parsedFlags d s e) = true
  /\ rounds (parsedFlags d s e) = Z.to_nat (e - s + 1).
Proof.
  intros Hs Hse He.
  assert (Hst : startOf (parsedFlags d s e) = s).
  { unfold startOf, effectiveStep. cbn [parsedFlags sendStartStep].
    replace (s >? 0) with true by (symmetry; apply Z.gtb_lt; lia). reflexivity. }
  assert (Hen : endOf (parsedFlags d s e) = e).
  { unfold endOf, effectiveStep. cbn [parsedFlags sendEndStep].
    replace (e >? 0) with true by (symmetry; apply Z.gtb_lt; lia). reflexivity. }
  unfold stepsValid, rounds. rewrite Hst, Hen.
  repeat split.
  rewrite !andb_true_iff, !Z.ltb_lt, Z.leb_le. lia.
Qed.

Lemma startOf_pos (flags : Flags) : 1 <= startOf flags.
Proof.
  pose proof (effectiveStep_pos (sendStartStep flags) 1 ltac:(lia)) as H.
  fold (startOf flags) in H. lia.
Qed.

Lemma send_outcome (env : Env) (flags : Flags) (addr : string) :
  stepsValid flags = true ->
  match firstFailure env addr (startOf flags) 0 (rounds flags) with
  | None =>
      result (send int64Size env flags [addr]) = inr (Returned None)
      /\ events (send int64Size env flags [addr])
         = flat_map (roundEvents env addr (startOf flags)) (seq 0 (rounds flags))
  | Some f =>
      (f < rounds flags)%nat
      /\ exists e,
          stepError (roundResult env addr (startOf flags) f) = Some e
          /\ result (send int64Size env flags [addr]) = inr (Returned (Some e))
          /\ events (send int64Size env flags [addr])
             = flat_map (roundEvents env addr (startOf flags)) (seq 0 f)
               ++ roundEvents env addr (startOf flags) f
  end.
Proof.
  intros Hvalid.
  destruct (firstFailure env addr (startOf flags) 0 (rounds flags)) as [f|] eqn:Hff.
  - destruct (firstFailure_some _ _ _ _ _ _ Hff) as (Hf & Hbad & Hbefore).
    split; [lia|].
    apply send_first_failure; try assumption; [lia|].
    intros i Hi. apply Hbefore. lia.
  - apply send_all_ok; [assumption|].
    intros i Hi. apply (firstFailure_none _ _ _ _ _ Hff). lia.
Qed.

Lemma firstFailure_all_ok (env : Env) (addr : string) (start : Z) (n : nat) :
  forall i,
    (forall j, (i <= j < i + n)%nat -> roundOk env addr start j = true) ->
    firstFailure env addr start i n = None.
Proof.
  induction n as [|n IH]; intros i H; [reflexivity|].
  cbn [firstFailure]. rewrite H by lia. apply IH. intros j Hj. apply H. lia.
Qed.

(** What can be read off the trace of any accepted run: the rounds begun and
    the requests sent. *)
Lemma send_observed (env : Env) (flags : Flags) (addr : string) :
  stepsValid flags = true ->
  let t := events (send int64Size env flags [addr]) in
  exists r c,
    (c <= r <= rounds flags)%nat
    /\ roundsOf t = powersOfTwo (startOf flags) r
    /\ requestsOf t = map (roundRequest env addr (startOf flags)) (seq 0 c).
Proof.
  intros Hvalid t. subst t.
  pose proof (send_outcome env flags addr Hvalid) as H.
  destruct (firstFailure env addr (startOf flags) 0 (rounds flags)) as [f|] eqn:Hff.
  - destruct H as (Hf & e & Herr & _ & Hev).
    destruct (firstFailure_some _ _ _ _ _ _ Hff) as (_ & Hbad & Hbefore).
    exists (S f), (sentUpTo env addr (startOf flags) f).
    rewrite Hev, roundsOf_app, requestsOf_app, roundsOf_rounds, roundsOf_round,
      requestsOf_round.
    rewrite requestsOf_rounds by (intros j Hj; apply Hbefore; lia).
    unfold sentUpTo, powersOfTwo.
    destruct (stepSent _).
    + split; [lia|]. rewrite !seq_S, !map_app. auto.
    + split; [lia|]. rewrite seq_S, map_app, app_nil_r. auto.
  - destruct H as (_ & Hev).
    exists (rounds flags), (rounds flags).
    rewrite Hev, roundsOf_rounds.
    rewrite requestsOf_rounds
      by (intros j Hj; apply (firstFailure_none _ _ _ _ _ Hff); lia).
    split; [lia|]. auto.
Qed.

Lemma send_all_ok_sizes (env : Env) (flags : Flags) (addr : string) :
  stepsValid flags = true ->
  (forall i, (i < rounds flags)%nat -> roundOk env addr (startOf flags) i = true) ->
  result (send int64Size env flags [addr]) = inr (Returned None)
  /\ roundsOf (events (send int64Size env flags [addr]))
     = powersOfTwo (startOf flags) (rounds flags)
  /\ sentSizes (events (send int64Size env flags [addr]))
     = powersOfTwo (startOf flags) (rounds flags).
Proof.
  intros Hvalid Hok.
  destruct (send_all_ok env flags addr Hvalid Hok) as [Hres Hev].
  split; [exact Hres|]. unfold sentSizes. rewrite Hev, roundsOf_rounds.
  rewrite requestsOf_rounds by (intros j Hj; apply Hok; lia).
  split; [reflexivity|]. apply sizes_of_rounds, startOf_pos.
Qed.

Lemma events_wrong_args (env : Env) (flags : Flags) (args : list string) :
  List.length args <> 1%nat ->
  result (send int64Size env flags args)
    = inr (Returned (Some (errors_New "send expects exactly 1 argument")))
  /\ events (send int64Size env flags args) = [Println usageText].
Proof.
  intros H. unfold result, events. rewrite send_wrong_args by exact H. split; reflexivity.
Qed.

Lemma one_argument (args : list string) :
  List.length args = 1%nat -> args = [nth 0 args ""].
Proof.
  destruct args as [|a [|b rest]]; simpl; intros H; try discriminate. reflexivity.
Qed.

(** A run that is not accepted puts nothing on the wire and begins no round. *)
Lemma send_not_accepted (env : Env) (flags : Flags) (args : list string) :
  accepted flags args = false ->
  (exists err, result (send int64Size env flags args) = inr (Returned (Some err)))
  /\ requestsOf (events (send int64Size env flags args)) = []
  /\ roundsOf (events (send int64Size env flags args)) = [].
Proof.
  unfold accepted. intros H.
  destruct (Nat.eqb_spec (List.length args) 1) as [Hlen|Hlen].
  - cbn [andb] in H. rewrite (one_argument args Hlen).
    destruct (send_rejected env flags (nth 0 args "") initWorld H) as [err Herr].
    unfold result, events. rewrite Herr. split; [now exists err|]. split; reflexivity.
  - destruct (events_wrong_args env flags args Hlen) as [Hres Hev].
    rewrite Hres, Hev. split; [eauto|]. split; reflexivity.
Qed.

(** ** Properties of [send] *)

(** C1.  In send mode, for step flags [0 < s <= e < 32] and an environment in
    which every round succeeds, the payload sizes sent are exactly
    [2^s, 2^(s+1), ..., 2^e], each twice the one before; with the default
    flags they are [2, 4, ..., 2^25]. *)
Theorem send_sizes_are_powers_of_two (env : Env) (addr : string) (d s e : Z) :
  0 < s -> s <= e -> e < 32 ->
  (forall i, (i < Z.to_nat (e - s + 1))%nat -> roundOk env addr s i = true) ->
  let sizes := sentSizes (events (send int64Size env (parsedFlags d s e) [addr])) in
  sizes = powersOfTwo s (Z.to_nat (e - s + 1))
  /\ doubling sizes
  /\ hd_error sizes = Some (2 ^ s)
  /\ last sizes 0 = 2 ^ e
  /\ ((forall i, (i < 25)%nat -> roundOk env addr 1 i = true) ->
      let sizes0 := sentSizes (events (send int64Size env defaultFlags [addr])) in
      sizes0 = powersOfTwo 1 25
      /\ hd_error sizes0 = Some 2
      /\ last sizes0 0 = 33554432).
Proof.
  intros Hs Hse He Hok sizes.
  destruct (parsedFlags_steps d s e Hs Hse He) as (Hst & Hen & Hvalid & Hm).
  assert (Hsizes : sizes = powersOfTwo s (Z.to_nat (e - s + 1))).
  { subst sizes.
    destruct (send_all_ok_sizes env (parsedFlags d s e) addr Hvalid) as (_ & _ & H).
    - rewrite Hst, Hm. exact Hok.
    - now rewrite H, Hst, Hm. }
  rewrite Hsizes.
  replace (Z.to_nat (e - s + 1)) with (S (Z.to_nat (e - s))) by lia.
  split; [reflexivity|]. split; [apply powersOfTwo_doubling; lia|].
  split; [apply powersOfTwo_hd|].
  split; [rewrite powersOfTwo_last; f_equal; lia|].
  intros Hok0 sizes0.
  destruct (parsedFlags_steps (0 * Second) 1 25) as (Hst0 & Hen0 & Hvalid0 & Hm0); try lia.
  fold defaultFlags in Hst0, Hen0, Hvalid0, Hm0.
  change (Z.to_nat (25 - 1 + 1)) with 25%nat in Hm0.
  assert (Hsizes0 : sizes0 = powersOfTwo 1 25).
  { subst sizes0.
    destruct (send_all_ok_sizes env defaultFlags addr Hvalid0) as (_ & _ & H).
    - rewrite Hst0, Hm0. exact Hok0.
    - now rewrite H, Hst0, Hm0. }
  rewrite Hsizes0. split; [reflexivity|].
  split; [apply powersOfTwo_hd|]. rewrite powersOfTwo_last. reflexivity.
Qed.

(** C2.  In every run of [send], the [i]-th request put on the wire belongs
    to the [i]-th round, whose target size [n] is in the log: it is a PUT to
    the given address whose body is the hexadecimal encoding of the [n/2]
    bytes the [i]-th [rand.Read] delivered; so the body is [n] bytes long
    and all of them are hexadecimal digits. *)
Theorem send_request_is_put_of_hex
  (env : Env) (flags : Flags) (args : list string) (i : nat) (req : Request) :
  nth_error (requestsOf (events (send int64Size env flags args))) i = Some req ->
  exists (n : Z) (b : list byte),
    nth_error (roundsOf (events (send int64Size env flags args))) i = Some n
    /\ n = 2 ^ (startOf flags + Z.of_nat i)
    /\ b = payload env i (Z.to_nat (Z.quot n 2))
    /\ Z.of_nat (List.length b) = Z.quot n 2
    /\ req = mkRequest "PUT" (nth 0 args "")
               (bytes_NewReader (list_byte_of_string (EncodeToString b)))
    /\ bodySize req = n
    /\ Forall (fun c => is_hex_byte c = true) (content (Body req)).
Proof.
  intros Hnth.
  destruct (accepted flags args) eqn:Hacc.
  2:{ destruct (send_not_accepted env flags args Hacc) as (_ & Hreq & _).
      rewrite Hreq in Hnth. destruct i; discriminate. }
  unfold accepted in Hacc. apply andb_prop in Hacc as [Hlen Hvalid].
  apply Nat.eqb_eq in Hlen. rewrite (one_argument args Hlen) in Hnth |- *.
  cbn [nth].
  destruct (send_observed env flags (nth 0 args "") Hvalid) as (r & c & Hcr & Hrounds & Hreqs).
  rewrite Hreqs in Hnth. rewrite Hrounds.
  rewrite nth_error_map_seq in Hnth.
  destruct (Nat.ltb_spec i c) as [Hi|Hi]; [|discriminate].
  injection Hnth as <-.
  pose proof (startOf_pos flags) as Hstart.
  exists (roundSize (startOf flags) i),
    (payload env i (Z.to_nat (Z.quot (roundSize (startOf flags) i) 2))).
  split.
  { unfold powersOfTwo. rewrite nth_error_map_seq.
    destruct (Nat.ltb_spec i r) as [_|Hr]; [reflexivity|lia]. }
  split; [reflexivity|]. split; [reflexivity|].
  split.
  { rewrite payload_length, Z2Nat.id; [reflexivity|].
    apply Z.quot_pos; [|lia]. pose proof (roundSize_pos (startOf flags) i). lia. }
  split; [reflexivity|].
  split; [now apply roundRequest_size|].
  apply putRequest_hex.
Qed.

Lemma send_failed_sizes (env : Env) (flags : Flags) (addr : string) (f : nat) :
  stepsValid flags = true ->
  (f < rounds flags)%nat ->
  (forall i, (i < f)%nat -> roundOk env addr (startOf flags) i = true) ->
  roundOk env addr (startOf flags) f = false ->
  (exists e, stepError (roundResult env addr (startOf flags) f) = Some e)
  /\ result (send int64Size env flags [addr])
     = inr (Returned (stepError (roundResult env addr (startOf flags) f)))
  /\ roundsOf (events (send int64Size env flags [addr]))
     = powersOfTwo (startOf flags) (S f)
  /\ sentSizes (events (send int64Size env flags [addr]))
     = powersOfTwo (startOf flags) (sentUpTo env addr (startOf flags) f).
Proof.
  intros Hvalid Hf Hok Hbad.
  destruct (send_first_failure env flags addr Hvalid f Hf Hok Hbad)
    as (e & Herr & Hres & Hev).
  split; [now exists e|]. rewrite Herr. split; [exact Hres|].
  unfold sentSizes.
  rewrite Hev, roundsOf_app, requestsOf_app, roundsOf_rounds, roundsOf_round,
    requestsOf_round.
  rewrite requestsOf_rounds by (intros j Hj; apply Hok; lia).
  split.
  - unfold powersOfTwo. now rewrite seq_S, map_app.
  - rewrite <- (sizes_of_rounds env addr) by apply startOf_pos.
    unfold sentUpTo. destruct (stepSent _).
    + now rewrite seq_S, !map_app.
    + now rewrite app_nil_r.
Qed.

(** C3, as amended.  [send] returns an error if and only if the argument
    count or a step flag is rejected or some round fails (no random bytes, no
    request built, a transport error, a status other than 200); it returns
    [nil] exactly when it is accepted and every round succeeds with status
    200; the sizes sent are a prefix of the full sequence; and the first
    round that fails is the last one begun, its error the one returned. *)
Theorem send_error_iff_rejected_or_round_fails
  (env : Env) (flags : Flags) (args : list string) :
  let addr := nth 0 args "" in
  let start := startOf flags in
  let m := rounds flags in
  let r := result (send int64Size env flags args) in
  let t := events (send int64Size env flags args) in
  ((exists err, r = inr (Returned (Some err))) <->
     accepted flags args = false
     \/ exists i, (i < m)%nat /\ roundOk env addr start i = false)
  /\ (r = inr (Returned None) <->
        accepted flags args = true
        /\ forall i, (i < m)%nat -> roundOk env addr start i = true)
  /\ (exists c, (c <= m)%nat /\ sentSizes t = firstn c (powersOfTwo start m))
  /\ (forall f,
        accepted flags args = true ->
        (f < m)%nat ->
        (forall i, (i < f)%nat -> roundOk env addr start i = true) ->
        roundOk env addr start f = false ->
        r = inr (Returned (stepError (roundResult env addr start f)))
        /\ roundsOf t = powersOfTwo start (S f)
        /\ sentSizes t = powersOfTwo start (sentUpTo env addr start f)).
Proof.
  intros addr start m r t.
  destruct (accepted flags args) eqn:Hacc.
  - unfold accepted in Hacc. apply andb_prop in Hacc as [Hlen Hvalid].
    apply Nat.eqb_eq in Hlen.
    subst r t. rewrite (one_argument args Hlen). fold addr.
    destruct (firstFailure env addr start 0 m) as [f|] eqn:Hff.
    + destruct (firstFailure_some _ _ _ _ _ _ Hff) as (Hf & Hbad & Hbefore).
      destruct (send_failed_sizes env flags addr f Hvalid) as ((e & He) & Hres & Hro & Hsz);
        [lia|intros i Hi; apply Hbefore; lia|exact Hbad|].
      fold start in He, Hres, Hro, Hsz. rewrite He in Hres.
      split; [|split; [|split]].
      * split; [intros _; right; exists f; split; [lia|exact Hbad]|].
        intros _. now exists e.
      * rewrite Hres. split; [discriminate|].
        intros [_ Hall]. rewrite Hall in Hbad by lia. discriminate.
      * exists (sentUpTo env addr start f).
        assert (Hc : (sentUpTo env addr start f <= m)%nat).
        { unfold sentUpTo. destruct (stepSent _); lia. }
        split; [exact Hc|]. now rewrite powersOfTwo_firstn.
      * intros f' _ Hf' Hbefore' Hbad'.
        assert (f' = f) as ->.
        { destruct (Nat.lt_trichotomy f' f) as [Hlt|[Heq|Hgt]]; [|exact Heq|].
          - rewrite Hbefore in Hbad' by lia. discriminate.
          - rewrite Hbefore' in Hbad by lia. discriminate. }
        rewrite He. auto.
    + pose proof (firstFailure_none _ _ _ _ _ Hff) as Hall.
      destruct (send_all_ok_sizes env flags addr Hvalid) as (Hres & _ & Hsz);
        [intros i Hi; apply Hall; lia|].
      fold start m in Hsz.
      split; [|split; [|split]].
      * rewrite Hres. split; [intros [err Herr]; discriminate|].
        intros [H|(i & Hi & Hbad)]; [discriminate|].
        rewrite Hall in Hbad by lia. discriminate.
      * split; [|intros _; exact Hres].
        intros _. split; [reflexivity|]. intros i Hi. apply Hall. lia.
      * exists m. split; [lia|]. now rewrite powersOfTwo_firstn.
      * intros f _ Hf _ Hbad. rewrite Hall in Hbad by lia. discriminate.
  - destruct (send_not_accepted env flags args Hacc) as ((err & Herr) & Hreq & _).
    subst r t. rewrite Herr. unfold sentSizes. rewrite Hreq.
    split; [|split; [|split]].
    + split; [intros _; now left|]. intros _. now exists err.
    + split; [discriminate|]. intros [H _]. discriminate.
    + exists 0%nat. split; [lia|reflexivity].
    + intros f H. discriminate.
Qed.

(** C3, as the claim states it, fails: with no address argument [send]
    returns an error although no request was sent, and with an address that
    does not parse it returns an error in the first round, again before any request is sent. *)
Lemma send_error_without_failed_request :
  result (send int64Size okEnv defaultFlags [])
    = inr (Returned (Some (errors_New "send expects exactly 1 argument")))
  /\ requestsOf (events (send int64Size okEnv defaultFlags [])) = []
  /\ result (send int64Size strictEnv (parsedFlags 0 1 3) ["://"])
     = inr (Returned (Some (fmt_Errorf "could make request: %w"
                              [VError (foreign_error "missing protocol scheme")])))
  /\ requestsOf (events (send int64Size strictEnv (parsedFlags 0 1 3) ["://"])) = [].
Proof.
  split; [reflexivity|]. split; [reflexivity|].
  split; vm_compute; reflexivity.
Qed.

(** A bound that was enough stays enough: the result does not depend on it. *)
Lemma send_loop_fuel_mono (intSize : Z) (env : Env) (addr : string) (maxBytes : Z)
  (fuel : nat) :
  forall (fuel' : nat) (size : Z) (w : World),
    (fuel <= fuel')%nat ->
    fst (send_loop intSize fuel env addr maxBytes size w) <> inr OutOfFuel ->
    send_loop intSize fuel' env addr maxBytes size w
    = send_loop intSize fuel env addr maxBytes size w.
Proof.
  induction fuel as [|fuel IH]; intros fuel' size w Hle Hne.
  - exfalso. apply Hne. reflexivity.
  - destruct fuel' as [|fuel']; [lia|].
    cbn [send_loop] in *.
    destruct (size <=? maxBytes); [|reflexivity].
    unfold bind in *.
    destruct (iteration env addr size w) as [[[]|x] w1]; [|reflexivity].
    apply IH; [lia|exact Hne].
Qed.

Lemma send_returns (env : Env) (flags : Flags) (addr : string) :
  exists err, result (send int64Size env flags [addr]) = inr (Returned err).
Proof.
  destruct (stepsValid flags) eqn:Hvalid.
  - pose proof (send_outcome env flags addr Hvalid) as H.
    destruct (firstFailure env addr (startOf flags) 0 (rounds flags)) as [f|].
    + destruct H as (_ & e & _ & Hres & _). eexists. exact Hres.
    + destruct H as (Hres & _). eexists. exact Hres.
  - destruct (send_rejected env flags addr initWorld Hvalid) as [err Herr].
    unfold result. rewrite Herr. eexists. reflexivity.
Qed.

(** C7.  For step flags [0 < s <= e < 32] the loop of [send] terminates in
    every environment: [send] returns, and the bound of the unrolling plays
    no part, any larger one gives the same run.  When every round succeeds
    the loop makes exactly [e - s + 1] rounds, each with one request. *)
Theorem send_loop_terminates (env : Env) (addr : string) (d s e : Z) :
  0 < s -> s <= e -> e < 32 ->
  (forall i, (i < Z.to_nat (e - s + 1))%nat -> roundOk env addr s i = true) ->
  let flags := parsedFlags d s e in
  (forall env', exists err, result (send int64Size env' flags [addr]) = inr (Returned err))
  /\ (forall env' fuel,
        (loopFuel int64Size <= fuel)%nat ->
        send_loop int64Size fuel env' addr (shl int64Size 1 e) (shl int64Size 1 s) initWorld
        = send_loop int64Size (loopFuel int64Size) env' addr
            (shl int64Size 1 e) (shl int64Size 1 s) initWorld)
  /\ result (send int64Size env flags [addr]) = inr (Returned None)
  /\ Z.of_nat (List.length (roundsOf (events (send int64Size env flags [addr])))) = e - s + 1
  /\ Z.of_nat (List.length (requestsOf (events (send int64Size env flags [addr])))) = e - s + 1.
Proof.
  intros Hs Hse He Hok flags.
  destruct (parsedFlags_steps d s e Hs Hse He) as (Hst & Hen & Hvalid & Hm).
  fold flags in Hst, Hen, Hvalid, Hm.
  split; [intros env'; apply send_returns|].
  split.
  { intros env' fuel Hfuel. apply send_loop_fuel_mono; [exact Hfuel|].
    destruct (send_returns env' flags addr) as [err Herr].
    unfold result in Herr. rewrite send_accepted in Herr by exact Hvalid.
    rewrite Hst, Hen in Herr.
    rewrite !shl_one by (unfold int64Size; lia).
    unfold bind in Herr.
    destruct (send_loop int64Size (loopFuel int64Size) env' addr (2 ^ e) (2 ^ s) initWorld)
      as [[[]|x] w1]; cbn [fst] in *; congruence. }
  destruct (send_all_ok_sizes env flags addr Hvalid) as (Hres & Hro & Hsz).
  { rewrite Hst, Hm. exact Hok. }
  split; [exact Hres|].
  split.
  - rewrite Hro. unfold powersOfTwo. rewrite length_map, length_seq, Hm. lia.
  - unfold sentSizes in Hsz.
    assert (Hlen : List.length (map bodySize
               (requestsOf (events (send int64Size env flags [addr]))))
             = List.length (powersOfTwo (startOf flags) (rounds flags)))
      by now rewrite Hsz.
    unfold powersOfTwo in Hlen. rewrite !length_map, length_seq in Hlen.
    rewrite Hlen, Hm. lia.
Qed.

Lemma listen_wrong_args (env : Env) (flags : Flags) (args : list string) :
  List.length args <> 1%nat ->
  result (listen env flags args)
    = inr (Returned (Some (errors_New "listen expects exactly 1 argument")))
  /\ events (listen env flags args) = [Println usageText].
Proof.
  intros H. unfold result, events, listen.
  apply Nat.eqb_neq in H. rewrite H. split; reflexivity.
Qed.

(** C6.  With an argument list whose length is not 1, [listen] and [send]
    print the usage text and return an error; the usage line is all they do:
    no handler is registered, no server started, no request sent. *)
Theorem wrong_argument_count (env : Env) (flags : Flags) (args : list string) :
  List.length args <> 1%nat ->
  result (listen env flags args)
    = inr (Returned (Some (errors_New "listen expects exactly 1 argument")))
  /\ events (listen env flags args) = [Println usageText]
  /\ result (send int64Size env flags args)
     = inr (Returned (Some (errors_New "send expects exactly 1 argument")))
  /\ events (send int64Size env flags args) = [Println usageText].
Proof.
  intros H.
  destruct (listen_wrong_args env flags args H) as [Hl1 Hl2].
  destruct (events_wrong_args env flags args H) as [Hs1 Hs2].
  auto.
Qed.

(** [send] looks at its step flags only through the steps it works with. *)
Lemma send_effective (env : Env) (flags flags' : Flags) (args : list string) (w : World) :
  startOf flags = startOf flags' -> endOf flags = endOf flags' ->
  send int64Size env flags args w = send int64Size env flags' args w.
Proof.
  intros Hs He.
  destruct (Nat.eq_dec (List.length args) 1) as [Hlen|Hlen].
  2:{ now rewrite !send_wrong_args by exact Hlen. }
  rewrite (one_argument args Hlen).
  destruct (Z.ltb_spec (startOf flags) 32) as [Hs32|Hs32].
  - destruct (Z.ltb_spec (endOf flags) 32) as [He32|He32].
    + destruct (Z.leb_spec (startOf flags) (endOf flags)) as [Hle|Hlt].
      * rewrite !send_accepted, Hs, He; [reflexivity| |];
          unfold stepsValid; rewrite !andb_true_iff, !Z.ltb_lt, Z.leb_le; lia.
      * rewrite !send_end_before_start; [reflexivity|lia..].
    + rewrite !send_end_too_big; [reflexivity|lia..].
  - rewrite !send_start_too_big; [reflexivity|lia..].
Qed.

(** C8.  [send] checks its step flags before it sends or logs anything: a
    start step or an end step of 32 or more is an error, an end step below
    the start step (both as [send] works with them) is an error, and a step
    that is zero or negative is not an error but stands for its default, 1
    for the start and 25 for the end. *)
Theorem send_validates_steps (env : Env) (addr : string) (d sv ev : Z) (w : World) :
  let run := fun s e => send int64Size env (parsedFlags d s e) [addr] w in
  (32 <= sv -> run sv ev = (inr (Returned (Some errStartStep)), w))
  /\ (sv < 32 -> 32 <= ev -> run sv ev = (inr (Returned (Some errEndStep)), w))
  /\ (32 <= sv \/ 32 <= ev -> exists err, run sv ev = (inr (Returned (Some err)), w))
  /\ (0 < sv < 32 -> 0 < ev < 32 -> ev < sv ->
      run sv ev = (inr (Returned (Some errEndBeforeStart)), w))
  /\ (startOf (parsedFlags d sv ev) < 32 -> endOf (parsedFlags d sv ev) < 32 ->
      endOf (parsedFlags d sv ev) < startOf (parsedFlags d sv ev) ->
      run sv ev = (inr (Returned (Some errEndBeforeStart)), w))
  /\ (sv <= 0 -> startOf (parsedFlags d sv ev) = 1 /\ run sv ev = run 1 ev)
  /\ (ev <= 0 -> endOf (parsedFlags d sv ev) = 25 /\ run sv ev = run sv 25)
  /\ (sv <= 0 -> ev <= 0 -> run sv ev = send int64Size env defaultFlags [addr] w).
Proof.
  intros run. subst run. cbv beta.
  assert (Hstart : startOf (parsedFlags d sv ev) = if sv >? 0 then sv else 1) by reflexivity.
  assert (Hend : endOf (parsedFlags d sv ev) = if ev >? 0 then ev else 25) by reflexivity.
  assert (Hgt : forall v, 0 < v -> (v >? 0) = true) by (intros v Hv; apply Z.gtb_lt; lia).
  assert (Hngt : forall v, v <= 0 -> (v >? 0) = false)
    by (intros v Hv; rewrite Z.gtb_ltb; apply Z.ltb_ge; lia).
  assert (H1 : 32 <= sv -> send int64Size env (parsedFlags d sv ev) [addr] w
                           = (inr (Returned (Some errStartStep)), w)).
  { intros H. apply send_start_too_big. rewrite Hstart, Hgt; lia. }
  assert (H2 : sv < 32 -> 32 <= ev -> send int64Size env (parsedFlags d sv ev) [addr] w
                           = (inr (Returned (Some errEndStep)), w)).
  { intros Hsv H. apply send_end_too_big.
    - rewrite Hstart. destruct (sv >? 0); lia.
    - rewrite Hend, Hgt; lia. }
  split; [exact H1|]. split; [exact H2|].
  split.
  { intros H. destruct (Z.le_gt_cases 32 sv) as [Hsv|Hsv].
    - eexists. apply H1. exact Hsv.
    - eexists. apply H2; lia. }
  split.
  { intros Hsv Hev Hlt. apply send_end_before_start;
      rewrite ?Hstart, ?Hend, !Hgt; lia. }
  split; [intros Hs He Hlt; now apply send_end_before_start|].
  split.
  { intros Hsv. rewrite Hstart, (Hngt sv Hsv). split; [reflexivity|].
    apply send_effective; [|reflexivity].
    unfold startOf, effectiveStep. cbn [parsedFlags sendStartStep].
    now rewrite (Hngt sv Hsv). }
  split.
  { intros Hev. rewrite Hend, (Hngt ev Hev). split; [reflexivity|].
    apply send_effective; [reflexivity|].
    unfold endOf, effectiveStep. cbn [parsedFlags sendEndStep].
    now rewrite (Hngt ev Hev). }
  intros Hsv Hev. apply send_effective.
  - unfold startOf, effectiveStep. cbn [parsedFlags sendStartStep defaultFlags].
    now rewrite (Hngt sv Hsv).
  - unfold endOf, effectiveStep. cbn [parsedFlags sendEndStep defaultFlags].
    now rewrite (Hngt ev Hev).
Qed.

(** ** The handler of [listen] *)

Lemma Rev0_handler_run (flags : Flags) (r : Request) (w : World) :
  Rev0.handler flags r w
  = (inr (Returned None),
     mkWorld (trace w ++ handledEvents flags r) (randCalls w) (doCalls w)).
Proof.
  unfold Rev0.handler, handledEvents, delayEvents, readEvents, readLog.
  unfold bind, log_Println, log_Printf, time_Sleep, io_ReadAll, emit, ret, bind, return_, leave.
  destruct (respDelay flags) as [d|]; [destruct (d >? 0 * Second)|];
    destruct (failure (Body r)) as [e|];
    cbn [trace randCalls doCalls app]; rewrite <- ?app_assoc; reflexivity.
Qed.

Lemma handler_run (flags : Flags) (r : Request) (w : World) :
  handler flags r w
  = if (Method r =? "GET")%string then (inr (Returned None), w)
    else Rev0.handler flags r w.
Proof.
  unfold handler, Rev0.handler. destruct (Method r =? "GET")%string; reflexivity.
Qed.

Lemma Rev0_handler_events (flags : Flags) (r : Request) :
  events (Rev0.handler flags r) = handledEvents flags r.
Proof. unfold events. rewrite Rev0_handler_run. reflexivity. Qed.

Lemma handler_events (flags : Flags) (r : Request) :
  events (handler flags r)
  = if (Method r =? "GET")%string then [] else handledEvents flags r.
Proof.
  unfold events. rewrite handler_run, Rev0_handler_run.
  destruct (Method r =? "GET")%string; reflexivity.
Qed.

Lemma handler_frame (flags : Flags) (r : Request) (w : World) :
  snd (handler flags r w)
  = mkWorld (trace w ++ events (handler flags r)) (randCalls w) (doCalls w).
Proof.
  rewrite handler_events, handler_run, Rev0_handler_run.
  destruct (Method r =? "GET")%string; cbn [snd]; [|reflexivity].
  rewrite app_nil_r. now destruct w.
Qed.

Lemma serveAll_run (flags : Flags) (rs : list Request) :
  forall w,
    serveAll (handler flags) rs w
    = (inl tt,
       mkWorld (trace w ++ flat_map (fun r => events (handler flags r)) rs)
         (randCalls w) (doCalls w)).
Proof.
  induction rs as [|r rs IH]; intros w.
  - cbn [serveAll flat_map]. rewrite app_nil_r. now destruct w.
  - cbn [serveAll flat_map]. unfold bind, serve. rewrite handler_frame, IH.
    cbn [trace randCalls doCalls]. now rewrite <- app_assoc.
Qed.

(** [listen] with its one argument: it registers the handler, serves what
    comes in and returns the error of the server. *)
Lemma listen_run (env : Env) (flags : Flags) (addr : string) :
  result (listen env flags [addr]) = inr (Returned (Some (serveError env)))
  /\ events (listen env flags [addr])
     = [HandleFunc "/"; LogPrintf "listening on %v\n" [VString addr]; ListenAndServe addr]
       ++ flat_map (fun r => events (handler flags r)) (incoming env).
Proof.
  unfold result, events, listen, http_ListenAndServe.
  cbn [List.length Nat.eqb negb nth].
  unfold bind, emit, log_Printf, emit. rewrite serveAll_run. split; reflexivity.
Qed.

Lemma method_not_get (r : Request) :
  Method r <> "GET" -> (Method r =? "GET")%string = false.
Proof. intros H. now apply String.eqb_neq. Qed.

(** C4, as amended.  For every request whose body is read without error and,
    in the revision with the method check, whose method is not GET, the
    handler reads the body and writes the number of bytes read to the log;
    so does [listen] for each such request that comes in. *)
Theorem handler_logs_bytes_read
  (env : Env) (flags : Flags) (addr : string) (r : Request) :
  failure (Body r) = None ->
  let n := List.length (content (Body r)) in
  (Method r <> "GET" ->
   In (ReadAll n None) (events (handler flags r))
   /\ In (LogPrintf "read %v bytes from body\n" [VInt (Z.of_nat n)])
        (events (handler flags r)))
  /\ (In (ReadAll n None) (events (Rev0.handler flags r))
      /\ In (LogPrintf "read %v bytes from body\n" [VInt (Z.of_nat n)])
           (events (Rev0.handler flags r)))
  /\ (Method r <> "GET" -> In r (incoming env) ->
      In (LogPrintf "read %v bytes from body\n" [VInt (Z.of_nat n)])
        (events (listen env flags [addr]))).
Proof.
  intros Hbody n.
  assert (Hin : In (ReadAll n None) (handledEvents flags r)
                /\ In (readLog r) (handledEvents flags r)).
  { unfold handledEvents, readEvents. rewrite Hbody. split.
    - right. apply in_or_app. right. now left.
    - right. apply in_or_app. right. right. now left. }
  split; [|split].
  - intros Hget. rewrite handler_events, method_not_get by exact Hget. exact Hin.
  - rewrite Rev0_handler_events. exact Hin.
  - intros Hget Hr. destruct (listen_run env flags addr) as [_ ->].
    apply in_or_app. right. apply in_flat_map. exists r. split; [exact Hr|].
    rewrite handler_events, method_not_get by exact Hget. apply Hin.
Qed.

(** C4, as the claim states it, fails on a GET request: nothing is logged. *)
Lemma get_request_logs_nothing :
  events (handler defaultFlags getRequest) = []
  /\ ~ In (LogPrintf "read %v bytes from body\n" [VInt 2])
         (events (handler defaultFlags getRequest)).
Proof. split; [reflexivity|]. intros H. exact H. Qed.

(** The byte count is not logged either when reading the body fails. *)
Lemma failed_read_logs_no_count :
  events (handler defaultFlags brokenRequest)
  = [LogPrintln "received request";
     ReadAll 1 (Some (foreign_error "unexpected EOF"));
     LogPrintf "error reading body: %v\n" [VError (foreign_error "unexpected EOF")];
     WriteHeader 500]
  /\ events (Rev0.handler defaultFlags brokenRequest)
     = events (handler defaultFlags brokenRequest).
Proof. split; reflexivity. Qed.

Lemma sleep_in_handled (flags : Flags) (r : Request) (d' : Z) :
  In (Sleep d') (handledEvents flags r) ->
  respDelay flags = Some d' /\ 0 < d'.
Proof.
  unfold handledEvents, delayEvents, readEvents, readLog.
  destruct (respDelay flags) as [d|]; [destruct (d >? 0 * Second) eqn:Hd|];
    destruct (failure (Body r)) as [e|];
    cbn [app In]; intros H;
    repeat match goal with
      | H : _ \/ _ |- _ => destruct H as [H|H]
      | H : False |- _ => destruct H
      end; try discriminate.
  all: injection H as <-; apply Z.gtb_lt in Hd; split; [reflexivity|exact Hd].
Qed.

Lemma slept_before_read_handled (flags : Flags) (r : Request) (d : Z) :
  respDelay flags = Some d ->
  (sleptBeforeRead d (handledEvents flags r) <-> 0 < d).
Proof.
  intros Hflag. split.
  - intros (t1 & t2 & t3 & n & err & Ht).
    assert (Hin : In (Sleep d) (handledEvents flags r)).
    { rewrite Ht. apply in_or_app. right. now left. }
    now apply sleep_in_handled in Hin.
  - intros Hd. unfold handledEvents, delayEvents. rewrite Hflag.
    replace (d >? 0 * Second) with true by (symmetry; apply Z.gtb_lt; exact Hd).
    exists [LogPrintln "received request";
            LogPrintf "waiting %s before reading/responding..." [VDuration d]],
      [], (tl (readEvents r)), (List.length (content (Body r))), (failure (Body r)).
    reflexivity.
Qed.

(** C5, as amended.  For every request that is not ignored (every request
    whose method is not GET; every request in the revision without the method
    check) the handler sleeps for resp-delay before it reads the body if and
    only if resp-delay is greater than zero; it never sleeps for any other
    duration, and with the default resp-delay of zero it does not sleep. *)
Theorem handler_sleeps_iff_delay_positive (d s e : Z) (r : Request) :
  let flags := parsedFlags d s e in
  (Method r <> "GET" ->
   (sleptBeforeRead d (events (handler flags r)) <-> 0 < d))
  /\ (sleptBeforeRead d (events (Rev0.handler flags r)) <-> 0 < d)
  /\ (forall d', In (Sleep d') (events (handler flags r)) -> d' = d /\ 0 < d)
  /\ (forall d', In (Sleep d') (events (Rev0.handler flags r)) -> d' = d /\ 0 < d)
  /\ (forall d', ~ In (Sleep d') (events (handler defaultFlags r)))
  /\ (forall d', ~ In (Sleep d') (events (Rev0.handler defaultFlags r))).
Proof.
  intros flags.
  assert (Hsleep : forall fl d', In (Sleep d') (events (handler fl r)) ->
                                 In (Sleep d') (handledEvents fl r)).
  { intros fl d'. rewrite handler_events.
    destruct (Method r =? "GET")%string; [intros []|auto]. }
  split; [|split; [|split; [|split; [|split]]]].
  - intros Hget. rewrite handler_events, method_not_get by exact Hget.
    now apply slept_before_read_handled.
  - rewrite Rev0_handler_events. now apply slept_before_read_handled.
  - intros d' H. apply Hsleep, sleep_in_handled in H as [Hflag Hpos].
    injection Hflag as <-. auto.
  - intros d'. rewrite Rev0_handler_events. intros H.
    apply sleep_in_handled in H as [Hflag Hpos]. injection Hflag as <-. auto.
  - intros d' H. apply Hsleep, sleep_in_handled in H as [Hflag Hpos].
    injection Hflag as <-. discriminate.
  - intros d'. rewrite Rev0_handler_events. intros H.
    apply sleep_in_handled in H as [Hflag Hpos]. injection Hflag as <-. discriminate.
Qed.

(** C5, as the claim states it, fails on a GET request: with a resp-delay of
    five seconds the handler returns without having slept. *)
Lemma get_request_is_not_delayed :
  0 < 5 * Second
  /\ events (handler (parsedFlags (5 * Second) 1 25) getRequest) = []
  /\ ~ sleptBeforeRead (5 * Second)
         (events (handler (parsedFlags (5 * Second) 1 25) getRequest)).
Proof.
  split; [reflexivity|]. split; [reflexivity|].
  intros (t1 & t2 & t3 & n & err & Ht).
  change (events (handler (parsedFlags (5 * Second) 1 25) getRequest)) with (@nil Event) in Ht.
  destruct t1; discriminate.
Qed.

(** C9.  A request whose method is GET is ignored: the handler returns at
    once and leaves the world as it was, nothing logged, no sleep, the body
    not read. *)
Theorem handler_ignores_get (flags : Flags) (r : Request) (w : World) :
  Method r = "GET" ->
  handler flags r w = (inr (Returned None), w).
Proof.
  intros H. rewrite handler_run, H. reflexivity.
Qed.

Lemma handled_status (flags : Flags) (r : Request) :
  let t := handledEvents flags r in
  (In (WriteHeader StatusInternalServerError) t <-> exists n e, In (ReadAll n (Some e)) t)
  /\ (In (WriteHeader StatusInternalServerError) t <-> failure (Body r) <> None)
  /\ (forall n, In (ReadAll n None) t ->
      (forall code, ~ In (WriteHeader code) t)
      /\ (forall b, ~ In (WriteBody b) t)
      /\ responseStatus t = StatusOK).
Proof.
  cbv zeta. 
  handler_cases flags r.
  all: repeat split; unfold not; intros;
    repeat match goal with
      | H : exists _, _ |- _ => destruct H
      | H : _ \/ _ |- _ => destruct H
      | H : False |- _ => destruct H
      | H : _ /\ _ |- _ => destruct H
      end; try discriminate; try congruence; try tauto.
  all: try (do 2 eexists; tauto).
Qed.

(** C10.  The handler writes status 500 if and only if it read the body and
    the read failed; when the body was read without error it writes neither
    a status nor a body, and the client gets the implicit 200.  The same in
    both revisions; a GET request, ignored by the later one, is not read. *)
Theorem handler_writes_500_iff_read_fails (flags : Flags) (r : Request) :
  let t := events (handler flags r) in
  let t0 := events (Rev0.handler flags r) in
  (In (WriteHeader StatusInternalServerError) t <-> exists n e, In (ReadAll n (Some e)) t)
  /\ (In (WriteHeader StatusInternalServerError) t <->
        Method r <> "GET" /\ failure (Body r) <> None)
  /\ (forall n, In (ReadAll n None) t ->
      (forall code, ~ In (WriteHeader code) t)
      /\ (forall b, ~ In (WriteBody b) t)
      /\ responseStatus t = StatusOK)
  /\ (In (WriteHeader StatusInternalServerError) t0 <-> exists n e, In (ReadAll n (Some e)) t0)
  /\ (In (WriteHeader StatusInternalServerError) t0 <-> failure (Body r) <> None)
  /\ (forall n, In (ReadAll n None) t0 ->
      (forall code, ~ In (WriteHeader code) t0)
      /\ (forall b, ~ In (WriteBody b) t0)
      /\ responseStatus t0 = StatusOK).
Proof.
  intros t t0. subst t t0.
  destruct (handled_status flags r) as (H1 & H2 & H3).
  rewrite Rev0_handler_events, handler_events.
  destruct (String.eqb_spec (Method r) "GET") as [Hget|Hget].
  - split; [|split; [|split; [|split; [|split]]]]; try assumption.
    + split; [intros []|]. intros (n & e & []).
    + split; [intros []|]. intros [H _]. now destruct H.
    + intros n [].
  - split; [|split; [|split; [|split; [|split]]]]; try assumption.
    rewrite H2. tauto.
Qed.

(** ** The earlier revision of [send] *)



(** ** A 32-bit [int]

    The results above are for a 64-bit [int].  On a target where [int] has
    32 bits, [1 << 31] is negative and the loop condition fails at once; and
    after the round at [2^30] the shift wraps to the least [int], which
    passes the loop condition and makes [make] panic. *)

Remark send_int32_end_31 (env : Env) (addr : string) :
  send 32 env (parsedFlags 0 1 31) [addr] initWorld = (inr (Returned None), initWorld).
Proof. reflexivity. Qed.

Remark send_int32_end_30 (env : Env) (addr : string) :
  roundOk env addr 30 0 = true ->
  fst (send 32 env (parsedFlags 0 30 30) [addr] initWorld)
  = inr (Panic "makeslice: len out of range").
Proof.
  intros Hok. apply roundOk_stepError in Hok. unfold roundResult in Hok.
  change (roundSize 30 0) with 1073741824 in Hok.
  destruct (iteration_run env addr 1073741824 initWorld 0 ltac:(lia) eq_refl eq_refl)
    as (Hres & _ & _).
  rewrite Hok in Hres.
  unfold send. cbn [List.length Nat.eqb negb nth parsedFlags sendStartStep sendEndStep].
  change (30 >? 0) with true. change (30 >=? 32) with false. cbv iota.
  change (to_uint 32 30) with 30.
  unfold bind at 1. unfold ret at 1. cbv beta iota.
  unfold bind at 1. unfold ret at 1. cbv beta iota.
  change (30 <? 30) with false. cbv iota.
  change (shl 32 1 30) with 1073741824.
  change (loopFuel 32) with (S (S 31)).
  unfold bind at 1. cbn [send_loop].
  change (1073741824 <=? 1073741824) with true. cbv iota.
  unfold bind at 1.
  destruct (iteration env addr 1073741824 initWorld) as [[[]|x] w1];
    cbn [fst] in Hres; [|discriminate].
  change (shl 32 1073741824 1) with (-2147483648).
  change (-2147483648 <=? 1073741824) with true. cbv iota.
  reflexivity.
Qed.

(** ** The theorems at sample inputs *)

Lemma okEnv_rounds (addr : string) (start : Z) (i : nat) :
  roundOk okEnv addr start i = true.
Proof. reflexivity. Qed.

Lemma send_sizes_are_powers_of_two_witness :
  (0 < 1 /\ 1 <= 3 /\ 3 < 32)
  /\ sentSizes (events (send int64Size okEnv (parsedFlags 0 1 3) ["http://localhost:8080"]))
     = [2; 4; 8]
  /\ sentSizes (events (send int64Size okEnv defaultFlags ["http://localhost:8080"]))
     = powersOfTwo 1 25.
Proof.
  split; [lia|].
  pose proof (send_sizes_are_powers_of_two okEnv "http://localhost:8080" 0 1 3
                ltac:(lia) ltac:(lia) ltac:(lia)
                (fun i _ => okEnv_rounds "http://localhost:8080" 1 i)) as H.
  cbv zeta in H. destruct H as (Hsizes & _ & _ & _ & Hdefault).
  split; [exact Hsizes|].
  exact (proj1 (Hdefault (fun i _ => okEnv_rounds "http://localhost:8080" 1 i))).
Defined.

Lemma send_request_is_put_of_hex_witness :
  nth_error
    (requestsOf (events (send int64Size okEnv (parsedFlags 0 1 3) ["http://localhost:8080"])))
    1
  = Some (putRequest "http://localhost:8080" [x1f; x1f])
  /\ bodySize (putRequest "http://localhost:8080" [x1f; x1f]) = 4
  /\ Forall (fun c => is_hex_byte c = true)
       (content (Body (putRequest "http://localhost:8080" [x1f; x1f]))).
Proof.
  assert (Hnth : nth_error
            (requestsOf
               (events (send int64Size okEnv (parsedFlags 0 1 3) ["http://localhost:8080"])))
            1
          = Some (putRequest "http://localhost:8080" [x1f; x1f])) by reflexivity.
  split; [exact Hnth|].
  destruct (send_request_is_put_of_hex okEnv (parsedFlags 0 1 3) ["http://localhost:8080"]
              1%nat (putRequest "http://localhost:8080" [x1f; x1f]) Hnth)
    as (n & b & _ & Hn & _ & _ & _ & Hsize & Hhex).
  split; [|exact Hhex].
  rewrite Hsize, Hn. reflexivity.
Defined.

Lemma send_loop_terminates_witness :
  (0 < 1 /\ 1 <= 3 /\ 3 < 32)
  /\ result (send int64Size okEnv (parsedFlags 0 1 3) ["http://localhost:8080"])
     = inr (Returned None)
  /\ Z.of_nat (List.length
       (roundsOf (events (send int64Size okEnv (parsedFlags 0 1 3) ["http://localhost:8080"]))))
     = 3 - 1 + 1.
Proof.
  split; [lia|].
  pose proof (send_loop_terminates okEnv "http://localhost:8080" 0 1 3
                ltac:(lia) ltac:(lia) ltac:(lia)
                (fun i _ => okEnv_rounds "http://localhost:8080" 1 i)) as H.
  cbv zeta in H. destruct H as (_ & _ & Hres & Hrounds & _).
  split; [exact Hres|exact Hrounds].
Defined.

Lemma wrong_argument_count_witness :
  List.length ["localhost:8080"; "localhost:8081"] <> 1%nat
  /\ events (listen okEnv defaultFlags ["localhost:8080"; "localhost:8081"])
     = [Println usageText]
  /\ events (send int64Size okEnv defaultFlags ["localhost:8080"; "localhost:8081"])
     = [Println usageText].
Proof.
  assert (Hlen : List.length ["localhost:8080"; "localhost:8081"] <> 1%nat)
    by (simpl; lia).
  split; [exact Hlen|].
  destruct (wrong_argument_count okEnv defaultFlags
              ["localhost:8080"; "localhost:8081"] Hlen) as (_ & Hl & _ & Hs).
  split; [exact Hl|exact Hs].
Defined.

Lemma handler_logs_bytes_read_witness :
  failure (Body postRequest) = None
  /\ In (LogPrintf "read %v bytes from body\n" [VInt 2])
       (events (handler defaultFlags postRequest)).
Proof.
  split; [reflexivity|].
  destruct (handler_logs_bytes_read okEnv defaultFlags "localhost:8080" postRequest eq_refl)
    as (H & _ & _).
  apply H. discriminate.
Defined.

Lemma handler_ignores_get_witness :
  Method getRequest = "GET"
  /\ handler (parsedFlags (5 * Second) 1 25) getRequest initWorld
     = (inr (Returned None), initWorld).
Proof.
  split; [reflexivity|].
  exact (handler_ignores_get (parsedFlags (5 * Second) 1 25) getRequest initWorld eq_refl).
Defined.

(** * Beyond the claims *)

(** ** [main] *)

Lemma runOrExit_run (format : string) (c : Go unit) (w : World) (err : option error) :
  fst (c w) = inr (Returned err) ->
  runOrExit format c w
  = match err with
    | Some e =>
        (OsExit 1,
         mkWorld (trace (snd (c w)) ++ [LogPrintf format [VError e]])
           (randCalls (snd (c w))) (doCalls (snd (c w))))
    | None => (OsExit 0, snd (c w))
    end.
Proof.
  unfold runOrExit. destruct (c w) as [r w']. cbn [fst snd]. intros ->.
  destruct err as [e|]; reflexivity.
Qed.



Lemma listen_always_fails (env : Env) (flags : Flags) (args : list string) :
  exists err, result (listen env flags args) = inr (Returned (Some err)).
Proof.
  destruct (Nat.eq_dec (List.length args) 1) as [Hlen|Hlen].
  - rewrite (one_argument args Hlen).
    destruct (listen_run env flags (nth 0 args "")) as [Hres _]. eexists. exact Hres.
  - destruct (listen_wrong_args env flags args Hlen) as [Hres _]. eexists. exact Hres.
Qed.


(** X2.  Without a subcommand, or with one that is neither [listen] nor
    [send], [main] (of either revision) prints the usage text, after the log
    line [unknown arg] when there was an argument, and exits with status 1;
    it starts no server and sends nothing. *)
Theorem main_usage_on_unknown_command
  (listenCmd sendCmd : list string -> Go unit) (args : list string) (w : World) :
  nth 0 args "" <> "listen" -> nth 0 args "" <> "send" ->
  mainWith listenCmd sendCmd args w
  = (OsExit 1,
     mkWorld
       (trace w
        ++ match args with
           | [] => []
           | sub :: _ => [LogPrintf "unknown arg %v" [VString sub]]
           end
        ++ [Println usageText])
       (randCalls w) (doCalls w)).
Proof.
  intros Hlisten Hsend. unfold mainWith.
  destruct args as [|sub rest]; [reflexivity|].
  cbn [List.length Nat.eqb nth] in *.
  apply String.eqb_neq in Hlisten, Hsend. rewrite Hlisten, Hsend.
  cbn. now rewrite <- app_assoc.
Qed.

Lemma main_usage_on_unknown_command_witness :
  (nth 0 ["serve"; "localhost:8080"] "" <> "listen"
   /\ nth 0 ["serve"; "localhost:8080"] "" <> "send")
  /\ main int64Size okEnv defaultFlags ["serve"; "localhost:8080"] initWorld
     = (OsExit 1,
        mkWorld [LogPrintf "unknown arg %v" [VString "serve"]; Println usageText] 0 0)
  /\ mainRev0 int64Size okEnv defaultFlags [] initWorld
     = (OsExit 1, mkWorld [Println usageText] 0 0).
Proof.
  assert (H1 : nth 0 ["serve"; "localhost:8080"] "" <> "listen") by discriminate.
  assert (H2 : nth 0 ["serve"; "localhost:8080"] "" <> "send") by discriminate.
  split; [split; assumption|].
  split.
  - exact (main_usage_on_unknown_command (listen okEnv defaultFlags)
             (send int64Size okEnv defaultFlags) ["serve"; "localhost:8080"] initWorld H1 H2).
  - refine (main_usage_on_unknown_command (Rev0.listen okEnv defaultFlags)
             (Rev0.send int64Size okEnv) [] initWorld _ _); discriminate.
Defined.

(** X3.  A failing subcommand is reported once, last: when [listen] or
    [send] returns an error, [main] adds to what the subcommand did the one
    log line [failed to listen] or [failed to send] with that error and exits
    with 1; when [send] returns [nil], [main] adds nothing and exits with 0. *)
Theorem main_reports_failure (env : Env) (flags : Flags) (rest : list string) :
  (exists err,
      result (listen env flags rest) = inr (Returned (Some err))
      /\ fst (main int64Size env flags ("listen" :: rest) initWorld) = OsExit 1
      /\ trace (snd (main int64Size env flags ("listen" :: rest) initWorld))
         = events (listen env flags rest)
           ++ [LogPrintf "failed to listen: %v\n" [VError err]])
  /\ (forall err,
        result (send int64Size env flags rest) = inr (Returned (Some err)) ->
        fst (main int64Size env flags ("send" :: rest) initWorld) = OsExit 1
        /\ trace (snd (main int64Size env flags ("send" :: rest) initWorld))
           = events (send int64Size env flags rest)
             ++ [LogPrintf "failed to send: %v\n" [VError err]])
  /\ (result (send int64Size env flags rest) = inr (Returned None) ->
      main int64Size env flags ("send" :: rest) initWorld
      = (OsExit 0, snd (send int64Size env flags rest initWorld))).
Proof.
  unfold main, mainWith. cbn [List.length Nat.eqb nth tl String.eqb Ascii.eqb Bool.eqb].
  split; [|split].
  - destruct (listen_always_fails env flags rest) as [err Herr].
    exists err. split; [exact Herr|].
    rewrite (runOrExit_run _ _ _ _ Herr). split; reflexivity.
  - intros err Herr. rewrite (runOrExit_run _ _ _ _ Herr). split; reflexivity.
  - intros Hnil. rewrite (runOrExit_run _ _ _ _ Hnil). reflexivity.
Qed.

(** ** [listen] and its handler *)




Lemma counts_of_handled (flags : Flags) (r : Request) :
  readsOf (handledEvents flags r) = 1%nat
  /\ headersOf (handledEvents flags r)
     = match failure (Body r) with Some _ => 1%nat | None => 0%nat end
  /\ hd_error (handledEvents flags r) = Some (LogPrintln "received request").
Proof.
  handler_cases flags r; repeat split; reflexivity.
Qed.

(** X5.  The handler never panics, whatever the request and the world.  A
    request that is not a GET is announced first with [received request]; its
    body is read exactly once and at most one status is written, one exactly
    when the read failed.  A GET is not read at all by the later revision
    and is read like any other by the earlier one. *)
Theorem handler_reads_body_once (flags : Flags) (r : Request) (w : World) :
  fst (handler flags r w) = inr (Returned None)
  /\ fst (Rev0.handler flags r w) = inr (Returned None)
  /\ readsOf (events (handler flags r)) = (if notGet r then 1 else 0)%nat
  /\ readsOf (events (Rev0.handler flags r)) = 1%nat
  /\ headersOf (events (Rev0.handler flags r))
     = match failure (Body r) with Some _ => 1%nat | None => 0%nat end
  /\ headersOf (events (handler flags r))
     = (if notGet r then headersOf (events (Rev0.handler flags r)) else 0)%nat
  /\ hd_error (events (Rev0.handler flags r)) = Some (LogPrintln "received request")
  /\ (notGet r = true ->
      hd_error (events (handler flags r)) = Some (LogPrintln "received request")).
Proof.
  destruct (counts_of_handled flags r) as (Hreads & Hheaders & Hfirst).
  rewrite !Rev0_handler_events, !handler_events, handler_run, Rev0_handler_run.
  unfold notGet.
  destruct (Method r =? "GET")%string; cbn [negb fst];
    repeat split; try assumption; try reflexivity; discriminate.
Qed.

(** ** More on [send] *)

Lemma sum_of_rounds (start : Z) (n : nat) :
  0 <= start ->
  forall i, sumZ (map (roundSize start) (seq i n))
            = roundSize start (i + n) - roundSize start i.
Proof.
  intros Hs. induction n as [|n IH]; intros i.
  - rewrite Nat.add_0_r. cbn. lia.
  - cbn [seq map sumZ fold_right]. fold (sumZ (map (roundSize start) (seq (S i) n))).
    rewrite IH. replace (S i + n)%nat with (i + S n)%nat by lia.
    rewrite (roundSize_succ start i) by exact Hs. lia.
Qed.

Lemma sum_of_powersOfTwo (start : Z) (n : nat) :
  0 <= start ->
  sumZ (powersOfTwo start n) = 2 ^ (start + Z.of_nat n) - 2 ^ start.
Proof.
  intros Hs. unfold powersOfTwo. rewrite sum_of_rounds by exact Hs.
  unfold roundSize. cbn [Nat.add]. now rewrite Z.add_0_r.
Qed.

(** The rounds begun and the requests sent by any run, accepted or not:
    the requests are at most one behind the rounds. *)
Lemma send_counts (env : Env) (flags : Flags) (args : list string) :
  let t := events (send int64Size env flags args) in
  exists r c,
    (c <= r)%nat /\ (r <= S c)%nat
    /\ (r = 0%nat \/ (stepsValid flags = true /\ (r <= rounds flags)%nat))
    /\ roundsOf t = powersOfTwo (startOf flags) r
    /\ sentSizes t = powersOfTwo (startOf flags) c.
Proof.
  cbv zeta.
  destruct (accepted flags args) eqn:Hacc.
  2:{ destruct (send_not_accepted env flags args Hacc) as (_ & Hreq & Hro).
      exists 0%nat, 0%nat. unfold sentSizes. rewrite Hreq, Hro.
      repeat split; try lia; auto. }
  unfold accepted in Hacc. apply andb_prop in Hacc as [Hlen Hvalid].
  apply Nat.eqb_eq in Hlen. rewrite (one_argument args Hlen).
  set (addr := nth 0 args "").
  destruct (firstFailure env addr (startOf flags) 0 (rounds flags)) as [f|] eqn:Hff.
  - destruct (firstFailure_some _ _ _ _ _ _ Hff) as (Hf & Hbad & Hbefore).
    destruct (send_failed_sizes env flags addr f Hvalid) as (_ & _ & Hro & Hsz);
      [lia|intros i Hi; apply Hbefore; lia|exact Hbad|].
    exists (S f), (sentUpTo env addr (startOf flags) f).
    assert (Hc : (f <= sentUpTo env addr (startOf flags) f <= S f)%nat).
    { unfold sentUpTo. destruct (stepSent _); lia. }
    repeat split; try lia; try assumption. right. split; [exact Hvalid|lia].
  - pose proof (firstFailure_none _ _ _ _ _ Hff) as Hall.
    destruct (send_all_ok_sizes env flags addr Hvalid) as (_ & Hro & Hsz);
      [intros i Hi; apply Hall; lia|].
    exists (rounds flags), (rounds flags).
    repeat split; try lia; try assumption. right. split; [exact Hvalid|lia].
Qed.

(** X6.  What any run of [send] can cost, whatever the flags, the arguments
    and the answers: at most 31 requests; the sizes sent double from
    [2^start] on, each between 2 bytes and [2^31]; less than [2^32] bytes in
    all; and a request is sent only in a round that was begun, at most the
    last round begun without its request. *)
Theorem send_requests_bounded (env : Env) (flags : Flags) (args : list string) :
  let t := events (send int64Size env flags args) in
  (List.length (requestsOf t) <= 31)%nat
  /\ (List.length (requestsOf t) <= List.length (roundsOf t)
      <= S (List.length (requestsOf t)))%nat
  /\ doubling (sentSizes t)
  /\ Forall (fun n => 2 <= n <= 2 ^ 31) (sentSizes t)
  /\ 0 <= sumZ (sentSizes t) < 2 ^ 32.
Proof.
  cbv zeta.
  destruct (send_counts env flags args) as (r & c & Hcr & Hrc & Hr & Hro & Hsz).
  pose proof (startOf_pos flags) as Hstart.
  assert (Hlen : List.length (requestsOf (events (send int64Size env flags args))) = c).
  { transitivity (List.length (sentSizes (events (send int64Size env flags args)))).
    - unfold sentSizes. now rewrite length_map.
    - rewrite Hsz. unfold powersOfTwo. now rewrite length_map, length_seq. }
  assert (Hlen' : List.length (roundsOf (events (send int64Size env flags args))) = r).
  { rewrite Hro. unfold powersOfTwo. now rewrite length_map, length_seq. }
  rewrite Hlen, Hlen', Hsz.
  destruct Hr as [->|[Hvalid Hr]].
  { assert (c = 0%nat) as -> by lia.
    cbn. repeat split; try lia. constructor. }
  assert (Hbound : startOf flags + Z.of_nat c <= 32).
  { destruct (stepsValid_bounds flags Hvalid) as (_ & Hse & He).
    pose proof (rounds_end flags Hvalid). lia. }
  split; [lia|]. split; [lia|].
  split; [apply powersOfTwo_doubling; lia|].
  split.
  - unfold powersOfTwo. apply Forall_forall. intros n Hn.
    apply in_map_iff in Hn as (i & <- & Hi). apply in_seq in Hi.
    unfold roundSize. split.
    + change 2 with (2 ^ 1) at 1. apply Z.pow_le_mono_r; lia.
    + apply Z.pow_le_mono_r; lia.
  - rewrite sum_of_powersOfTwo by lia. split.
    + assert (2 ^ startOf flags <= 2 ^ (startOf flags + Z.of_nat c))
        by (apply Z.pow_le_mono_r; lia). lia.
    + assert (2 ^ (startOf flags + Z.of_nat c) <= 2 ^ 32)
        by (apply Z.pow_le_mono_r; lia).
      assert (0 < 2 ^ startOf flags) by (apply Z.pow_pos_nonneg; lia). lia.
Qed.

(** X7.  When every round succeeds, a run with step flags [0 < s <= e < 32]
    sends [2^(e+1) - 2^s] bytes of payload in all and logs one
    [sending ... bytes] line per size sent. *)
Theorem send_total_bytes (env : Env) (addr : string) (d s e : Z) :
  0 < s -> s <= e -> e < 32 ->
  (forall i, (i < Z.to_nat (e - s + 1))%nat -> roundOk env addr s i = true) ->
  let t := events (send int64Size env (parsedFlags d s e) [addr]) in
  sumZ (sentSizes t) = 2 ^ (e + 1) - 2 ^ s
  /\ roundsOf t = sentSizes t.
Proof.
  intros Hs Hse He Hok t. subst t.
  destruct (parsedFlags_steps d s e Hs Hse He) as (Hst & Hen & Hvalid & Hm).
  destruct (send_all_ok_sizes env (parsedFlags d s e) addr Hvalid) as (_ & Hro & Hsz).
  { rewrite Hst, Hm. exact Hok. }
  rewrite Hro, Hsz, Hst, Hm. split; [|reflexivity].
  rewrite sum_of_powersOfTwo by lia. do 2 f_equal. lia.
Qed.

Lemma send_total_bytes_witness :
  (0 < 1 /\ 1 <= 25 /\ 25 < 32)
  /\ sumZ (sentSizes (events (send int64Size okEnv (parsedFlags 0 1 25) ["http://localhost:8080"])))
     = 67108862.
Proof.
  split; [lia|].
  exact (proj1 (send_total_bytes okEnv "http://localhost:8080" 0 1 25
                  ltac:(lia) ltac:(lia) ltac:(lia)
                  (fun i _ => okEnv_rounds "http://localhost:8080" 1 i))).
Defined.

(** X8.  The address is not looked at before the loop: when it does not
    parse as a URL, an accepted run still logs its first size and draws the
    random bytes for it, then returns the error of [http.NewRequest] wrapped
    in [could make request]; no request is sent and no second round begun. *)
Theorem send_malformed_address
  (env : Env) (flags : Flags) (addr : string) (e : error) :
  stepsValid flags = true ->
  randError env 0 = None ->
  urlError env addr = Some e ->
  result (send int64Size env flags [addr])
    = inr (Returned (Some (fmt_Errorf "could make request: %w" [VError e])))
  /\ events (send int64Size env flags [addr])
     = [LogPrintf "sending %v bytes\n" [VInt (2 ^ startOf flags)];
        RandRead (Z.to_nat (2 ^ (startOf flags - 1)))].
Proof.
  intros Hvalid Hrand Hurl.
  assert (Hres : roundResult env addr (startOf flags) 0 = RequestNotBuilt e).
  { unfold roundResult, stepResult. now rewrite Hrand, Hurl. }
  assert (Hbad : roundOk env addr (startOf flags) 0 = false)
    by (unfold roundOk; now rewrite Hres).
  destruct (stepsValid_bounds flags Hvalid) as (Hs & Hse & He).
  pose proof (rounds_end flags Hvalid) as Hm.
  destruct (send_first_failure env flags addr Hvalid 0) as (e' & He' & Hr & Hev);
    [lia|intros i Hi; lia|exact Hbad|].
  rewrite Hres in He'. cbn [stepError] in He'. injection He' as <-.
  split; [exact Hr|].
  rewrite Hev. cbn [seq flat_map app].
  unfold roundEvents, stepEvents. fold (roundResult env addr (startOf flags) 0).
  rewrite Hres. cbn [stepSent app].
  rewrite roundSize_half by lia. unfold roundSize.
  repeat f_equal; lia.
Qed.

Lemma send_malformed_address_witness :
  (stepsValid (parsedFlags 0 3 5) = true
   /\ randError strictEnv 0 = None
   /\ urlError strictEnv "://" = Some (foreign_error "missing protocol scheme"))
  /\ events (send int64Size strictEnv (parsedFlags 0 3 5) ["://"])
     = [LogPrintf "sending %v bytes\n" [VInt 8]; RandRead 4].
Proof.
  split; [repeat split|].
  exact (proj2 (send_malformed_address strictEnv (parsedFlags 0 3 5) "://"
                  (foreign_error "missing protocol scheme") eq_refl eq_refl eq_refl)).
Defined.

(** ** The earlier revision of [send], again *)


(** ** A 32-bit [int], in general *)

Lemma send_accepted_any (intSize : Z) (env : Env) (flags : Flags) (addr : string)
  (w : World) :
  5 < intSize ->
  stepsValid flags = true ->
  send intSize env flags [addr] w
  = (send_loop intSize (loopFuel intSize) env addr
       (shl intSize 1 (endOf flags)) (shl intSize 1 (startOf flags)) ;; return_ None) w.
Proof.
  intros Hsize Hvalid. destruct (stepsValid_bounds flags Hvalid) as (Hs & Hse & He).
  unfold startOf, endOf, effectiveStep in *.
  unfold send. cbn [List.length Nat.eqb negb nth].
  destruct (sendStartStep flags) as [sv|], (sendEndStep flags) as [ev|];
    case_positive; decide_cmp;
    unfold bind at 1; unfold ret at 1; cbv beta iota;
    unfold bind at 1; unfold ret at 1; cbv beta iota;
    rewrite ?to_uint_small by lia;
    match goal with
    | |- context [?e <? ?s] =>
        replace (e <? s) with false by (symmetry; apply Z.ltb_ge; lia)
    end; reflexivity.
Qed.

(** X10.  Where [int] has 32 bits, [1 << 31] is the least [int].  With an
    end step of 31 and a smaller start step the loop condition fails at
    once: [send] sends nothing, logs nothing and returns [nil].  With both
    steps 31 the one round begun panics in [make], after its log line. *)
Theorem send_int32_end_step_31 (env : Env) (addr : string) (d s : Z) (w : World) :
  0 < s -> s <= 31 ->
  send 32 env (parsedFlags d s 31) [addr] w
  = if s <? 31 then (inr (Returned None), w)
    else (inr (Panic "makeslice: len out of range"),
          mkWorld (trace w ++ [LogPrintf "sending %v bytes\n" [VInt (-2147483648)]])
            (randCalls w) (doCalls w)).
Proof.
  intros Hs Hs31.
  assert (Hflags : startOf (parsedFlags d s 31) = s /\ endOf (parsedFlags d s 31) = 31
                   /\ stepsValid (parsedFlags d s 31) = true).
  { destruct (parsedFlags_steps d s 31) as (H1 & H2 & H3 & _); auto; lia. }
  destruct Hflags as (Hst & Hen & Hvalid).
  rewrite send_accepted_any by (exact Hvalid || lia).
  rewrite Hst, Hen.
  change (shl 32 1 31) with (-2147483648).
  change (loopFuel 32) with (S 32).
  destruct (Z.ltb_spec s 31) as [Hlt|Hge].
  - rewrite shl_one by lia. unfold bind. cbn [send_loop].
    assert (0 < 2 ^ s) by (apply Z.pow_pos_nonneg; lia).
    replace (2 ^ s <=? -2147483648) with false by (symmetry; apply Z.leb_gt; lia).
    reflexivity.
  - assert (s = 31) as -> by lia. reflexivity.
Qed.

Lemma send_int32_end_step_31_witness :
  (0 < 1 /\ 1 <= 31)
  /\ send 32 busyEnv (parsedFlags 0 1 31) ["http://localhost:8080"] initWorld
     = (inr (Returned None), initWorld).
Proof.
  split; [lia|].
  exact (send_int32_end_step_31 busyEnv "http://localhost:8080" 0 1 initWorld
           ltac:(lia) ltac:(lia)).
Defined.

(** X11.  Where [int] has 32 bits, an end step of 30 makes [send] panic:
    when every round succeeds, all sizes from [2^s] to [2^30] are sent, the
    shift after the last one wraps to the least [int], which passes the loop
    condition, and [make] panics on the negative length. *)
Theorem send_int32_end_step_30 (env : Env) (addr : string) (d s : Z) :
  0 < s -> s <= 30 ->
  (forall i, (i < Z.to_nat (31 - s))%nat -> roundOk env addr s i = true) ->
  let run := send 32 env (parsedFlags d s 30) [addr] initWorld in
  fst run = inr (Panic "makeslice: len out of range")
  /\ sentSizes (trace (snd run)) = powersOfTwo s (Z.to_nat (31 - s))
  /\ roundsOf (trace (snd run)) = powersOfTwo s (Z.to_nat (31 - s)) ++ [-2147483648].
Proof.
  intros Hs Hs30 Hok run. subst run.
  destruct (parsedFlags_steps d s 30) as (Hst & Hen & Hvalid & _); try lia.
  rewrite send_accepted_any by (exact Hvalid || lia).
  rewrite Hst, Hen, !shl_one by lia.
  set (n := Z.to_nat (30 - s)).
  replace (Z.to_nat (31 - s)) with (S n) in * by lia.
  replace (loopFuel 32) with (n + S (S (31 - n)))%nat by (unfold loopFuel; lia).
  assert (Hlast : roundSize s n = 1073741824).
  { unfold roundSize. replace (s + Z.of_nat n) with 30 by lia. reflexivity. }
  destruct (send_loop_rounds 32 env addr s (2 ^ 30) ltac:(lia) ltac:(lia)
              n 0 (S (S (31 - n))) initWorld)
    as (w' & Hrun & Htr & Hr & Hd).
  - cbn [Nat.add]. rewrite Hlast. reflexivity.
  - intros j Hj. unfold roundSize. apply Z.pow_le_mono_r; lia.
  - intros j Hj. apply Hok. lia.
  - reflexivity.
  - reflexivity.
  - replace (2 ^ s) with (roundSize s 0) by (unfold roundSize; f_equal; lia).
    assert (Hokn : stepError (stepResult env addr n 1073741824) = None).
    { rewrite <- Hlast. apply roundOk_stepError. apply Hok. lia. }
    destruct (iteration_run env addr 1073741824 w' n ltac:(lia) Hr Hd)
      as (Hres & Htr1 & _).
    rewrite Hokn in Hres.
    assert (Hall : exists w2,
               (send_loop 32 (n + S (S (31 - n))) env addr (2 ^ 30) (roundSize s 0) ;;
                @return_ unit None) initWorld
               = (inr (Panic "makeslice: len out of range"), w2)
               /\ trace w2
                  = flat_map (roundEvents env addr s) (seq 0 n)
                    ++ roundEvents env addr s n
                    ++ [LogPrintf "sending %v bytes\n" [VInt (-2147483648)]]).
    { unfold bind at 1. rewrite Hrun. cbn [Nat.add] in *. rewrite Hlast.
      cbn [send_loop]. change (1073741824 <=? 2 ^ 30) with true. cbv iota.
      unfold bind at 1.
      destruct (iteration env addr 1073741824 w') as [[[]|x] w1];
        cbn [fst snd] in Hres, Htr1; [|discriminate].
      change (shl 32 1073741824 1) with (-2147483648).
      change (-2147483648 <=? 2 ^ 30) with true. cbv iota.
      eexists. split; [reflexivity|].
      cbn [trace]. rewrite Htr1, Htr. cbn [trace app].
      unfold roundEvents. rewrite Hlast. now rewrite <- app_assoc. }
    destruct Hall as (w2 & -> & Htr2). cbn [fst snd].
    split; [reflexivity|].
    rewrite Htr2. unfold sentSizes.
    rewrite !requestsOf_app, !roundsOf_app.
    rewrite requestsOf_rounds by (intros j Hj; apply Hok; lia).
    rewrite roundsOf_rounds, requestsOf_round, roundsOf_round.
    rewrite roundOk_sent by (apply Hok; lia).
    cbn [requestsOf roundsOf]. rewrite !app_nil_r.
    split.
    + rewrite <- (sizes_of_rounds env addr) by lia.
      now rewrite seq_S, !map_app.
    + unfold powersOfTwo. now rewrite seq_S, map_app, <- app_assoc.
Qed.

Lemma send_int32_end_step_30_witness :
  (0 < 30 /\ 30 <= 30)
  /\ fst (send 32 okEnv (parsedFlags 0 30 30) ["http://localhost:8080"] initWorld)
     = inr (Panic "makeslice: len out of range").
Proof.
  split; [lia|].
  exact (proj1 (send_int32_end_step_30 okEnv "http://localhost:8080" 0 30
                  ltac:(lia) ltac:(lia)
                  (fun i _ => okEnv_rounds "http://localhost:8080" 30 i))).
Defined.

(** ** The body and the random bytes *)

Lemma byteOfHex_digits (v : byte) :
  byteOfHex (hexdigit (N.shiftr (Byte.to_N v) 4)) (hexdigit (N.land (Byte.to_N v) 15))
  = Some v.
Proof. destruct v; reflexivity. Qed.

Lemma EncodeToString_injective (a : list byte) :
  forall b, EncodeToString a = EncodeToString b -> a = b.
Proof.
  induction a as [|v a IH]; intros [|u b] H; cbn [EncodeToString] in H;
    try discriminate; [reflexivity|].
  injection H as Hhi Hlo Hrest.
  assert (Hv : Some v = Some u).
  { etransitivity; [symmetry; apply byteOfHex_digits|].
    etransitivity; [exact (f_equal2 byteOfHex Hhi Hlo)|apply byteOfHex_digits]. }
  injection Hv as ->. f_equal. now apply IH.
Qed.

Lemma list_byte_of_string_injective (s t : string) :
  list_byte_of_string s = list_byte_of_string t -> s = t.
Proof.
  intros H. rewrite <- (string_of_list_byte_of_string s), H.
  apply string_of_list_byte_of_string.
Qed.

(** X12.  The body of a request loses nothing of the random bytes it was
    made from: two requests of [send] with the same body were made from the
    same bytes, whatever their addresses. *)
Theorem request_body_determines_payload (addr addr' : string) (a b : list byte) :
  content (Body (putRequest addr a)) = content (Body (putRequest addr' b)) ->
  a = b.
Proof.
  unfold putRequest, bytes_NewReader. cbn [Body content]. intros H.
  now apply EncodeToString_injective, list_byte_of_string_injective.
Qed.

Lemma request_body_determines_payload_witness :
  content (Body (putRequest "http://localhost:8080" [x1f; xa0]))
  = content (Body (putRequest "http://localhost:9090" [x1f; xa0]))
  /\ [x1f; xa0] = [x1f; xa0].
Proof.
  assert (H : content (Body (putRequest "http://localhost:8080" [x1f; xa0]))
              = content (Body (putRequest "http://localhost:9090" [x1f; xa0])))
    by reflexivity.
  split; [exact H|].
  exact (request_body_determines_payload _ _ _ _ H).
Defined.
